(** * Euclidean cluster extraction (pcl/segmentation/extract_clusters.h)

    A shallow embedding of the free functions [pcl::extractEuclideanClusters]
    and of the normal-deviation functor they are instantiated with, followed
    by the properties of the region-growing loop.

    Conventions of the embedding.
    - [index_t] values are only ever used as positions in vectors and as
      loop counters bounded by a vector size; they are modelled by [nat],
      sizes being taken to fit [index_t] as the casts of the source take
      them to.  A negative [index_t] used as a position is out of range
      exactly like one that is too large, and that case is kept: every
      unchecked [operator[]] of the source is a lookup that can fail.
    - A run of the source either returns, or performs an out-of-range read
      (undefined behaviour in C++), or is cut by the step budget of the
      model: these are the three constructors of [outcome].
    - [float] and [double] quantities of the normal-deviation test are
      idealised as real numbers.
    - Classes declared outside this header ([PointCloud], [PointIndices],
      [PCLHeader], [Normal], [search::Search], [ConstCloudIterator]) are
      records of the members the header reads, or parameters. *)

From Stdlib Require Import Reals Lra.
From stdpp Require Import base option list.

Set Default Proof Using "Type".

(** ** Outcomes of a run *)

Inductive outcome (A : Type) : Type :=
| Done (a : A)
| Undefined
| OutOfFuel.
Arguments Done {A} a.
Arguments Undefined {A}.
Arguments OutOfFuel {A}.

#[global] Instance outcome_ret : MRet outcome := fun _ a => Done a.
#[global] Instance outcome_bind : MBind outcome := fun _ _ k m =>
  match m with
  | Done a => k a
  | Undefined => Undefined
  | OutOfFuel => OutOfFuel
  end.

(** [v[i]] on a [std::vector]: no bounds check in the source. *)
Definition at_ {A} (v : list A) (i : nat) : outcome A :=
  match v !! i with
  | Some x => Done x
  | None => Undefined
  end.

(** ** Data *)

Abbreviation index_t := nat.
Abbreviation Indices := (list index_t).

(** [pcl::PointCloud<PointT>]: the header and the points; the point type
    and the header type are parameters. *)
Module PointCloud.
Record t (PCLHeader PointT : Type) : Type :=
  mk { header : PCLHeader; points : list PointT }.
Arguments mk {PCLHeader PointT} header points.
Arguments header {PCLHeader PointT} _.
Arguments points {PCLHeader PointT} _.
End PointCloud.

(** [pcl::PointIndices]: a header and the indices of a cluster. *)
Module PointIndices.
Record t (PCLHeader : Type) : Type :=
  mk { header : PCLHeader; indices : Indices }.
Arguments mk {PCLHeader} header indices.
Arguments header {PCLHeader} _.
Arguments indices {PCLHeader} _.
End PointIndices.

(** The part of [pcl::search::Search<PointT>] the extraction consults, any
    implementation being admitted: the sizes of the cloud and of the index
    list the tree was built over, the sorted-results flag and the radius
    search by point index.  The tolerance is only ever handed on to the
    search, so its type [float] is left a parameter.  [radiusSearch] yields
    its return value (the number of neighbours found) and the contents of
    the output argument [nn_indices]; the distances are never read.  [getIndices_size] is [None] when the tree holds no index
    list, in which case [tree->getIndices ()->size ()] dereferences a null
    pointer. *)
Module Search.
Record t (float : Type) : Type :=
  mk { getInputCloud_size : nat;
       getIndices_size : option nat;
       getSortedResults : bool;
       radiusSearch : index_t -> float -> nat * Indices }.
Arguments mk {float} _ _ _ _.
Arguments getInputCloud_size {float} _.
Arguments getIndices_size {float} _.
Arguments getSortedResults {float} _.
Arguments radiusSearch {float} _ _ _.
End Search.

(** What [PCL_ERROR] prints, one constructor per call site, with the two
    sizes of the format string. *)
Inductive Diagnostic : Type :=
| TreeCloudSizeMismatch (tree_size cloud_size : nat)
| TreeIndicesSizeMismatch (tree_size indices_size : nat)
| NormalsSizeMismatch (cloud_size normals_size : nat).

(** ** The region-growing engine *)

Section Engine.
Context {PCLHeader PointT float : Type}.

Local Abbreviation PointCloud := (PointCloud.t PCLHeader PointT).
Local Abbreviation PointIndices := (PointIndices.t PCLHeader).
Local Abbreviation Search := (Search.t float).

(** [bool(const PointCloud<PointT>&, index_t, const Indices&, index_t)];
    [None] is a call whose body reads out of range. *)
Definition FunctorT : Type :=
  PointCloud -> index_t -> Indices -> index_t -> option bool.

Section Loops.
Variables (cloud : PointCloud)
          (additional_filter_criteria : FunctorT)
          (tree : Search)
          (tolerance : float)
          (min_pts_per_cluster max_pts_per_cluster : nat).

(** [for (index_t j = nn_start_idx; j < nn_indices.size (); ++j)], run
    for the seed [cur]; [rest] is [nn_indices] from position [j] on. *)
Fixpoint neighbor_loop (cur : index_t) (nn_indices rest : Indices) (j : index_t)
    (processed : list bool) (seed_queue : Indices)
    : outcome (list bool * Indices) :=
  match rest with
  | [] => Done (processed, seed_queue)
  | nn_j :: rest' =>
      match processed !! nn_j with
      | None => Undefined
      | Some true => neighbor_loop cur nn_indices rest' (S j) processed seed_queue
      | Some false =>
          match additional_filter_criteria cloud cur nn_indices j with
          | None => Undefined
          | Some true =>
              neighbor_loop cur nn_indices rest' (S j)
                (<[nn_j := true]> processed) (seed_queue ++ [nn_j])
          | Some false =>
              neighbor_loop cur nn_indices rest' (S j) processed seed_queue
          end
      end
  end.

(** [for (index_t sq_idx = 0; sq_idx < seed_queue.indices.size (); ++sq_idx)].
    One unit of [fuel] is spent per iteration; what is left is returned. *)
Fixpoint queue_loop (nn_start_idx : index_t) (cur : index_t) (fuel : nat)
    (sq_idx : index_t) (processed : list bool) (seed_queue : Indices)
    : outcome (nat * list bool * Indices) :=
  match seed_queue !! sq_idx with
  | None => Done (fuel, processed, seed_queue)
  | Some member =>
      match fuel with
      | 0 => OutOfFuel
      | S fuel' =>
          let '(found, nn_indices) := Search.radiusSearch tree member tolerance in
          if Nat.eqb found 0
          then queue_loop nn_start_idx cur fuel' (S sq_idx) processed seed_queue
          else
            '(processed', seed_queue') ←
              neighbor_loop cur nn_indices (drop nn_start_idx nn_indices)
                nn_start_idx processed seed_queue;
            queue_loop nn_start_idx cur fuel' (S sq_idx) processed' seed_queue'
      end
  end.

(** [seed_queue.indices.size () >= min_pts_per_cluster &&
     seed_queue.indices.size () <= max_pts_per_cluster] *)
Definition satisfactory (seed_queue : Indices) : bool :=
  (min_pts_per_cluster <=? length seed_queue)
  && (length seed_queue <=? max_pts_per_cluster).

(** [for (; it.isValid (); ++it)]; [it] lists the values
    [it.getCurrentIndex ()] takes.  [seed_queue] aliases
    [clusters.back ()] in the source and nothing else touches [clusters]
    while it grows, so the queue is carried on its own and written back
    when it is exhausted: with the header of the cloud if it is
    satisfactory, not at all ([clusters.pop_back ()]) otherwise. *)
Fixpoint cloud_loop (nn_start_idx : index_t) (it : list index_t) (fuel : nat)
    (processed : list bool) (clusters : list PointIndices)
    : outcome (nat * list bool * list PointIndices) :=
  match it with
  | [] => Done (fuel, processed, clusters)
  | cur :: it' =>
      already ← at_ processed cur;
      if (already : bool)
      then cloud_loop nn_start_idx it' fuel processed clusters
      else
        '(fuel', processed', seed_queue) ←
          queue_loop nn_start_idx cur fuel 0 (<[cur := true]> processed) [cur];
        if satisfactory seed_queue
        then cloud_loop nn_start_idx it' fuel' processed'
               (clusters ++ [PointIndices.mk (PointCloud.header cloud) seed_queue])
        else cloud_loop nn_start_idx it' fuel' processed' clusters
  end.
End Loops.

(** [index_t nn_start_idx = tree->getSortedResults () ? 1 : 0;] *)
Definition nn_start_idx (tree : Search) : index_t :=
  if Search.getSortedResults tree then 1 else 0.

(** The overload taking a [ConstCloudIterator] (lines 76-134).  The result
    is what was printed and the contents of [clusters] on return. *)
Definition extractEuclideanClusters_it (fuel : nat) (it : list index_t)
    (cloud : PointCloud) (additional_filter_criteria : FunctorT)
    (tree : Search) (tolerance : float) (clusters : list PointIndices)
    (min_pts_per_cluster max_pts_per_cluster : nat)
    : outcome (list Diagnostic * list PointIndices) :=
  let cloud_size := length (PointCloud.points cloud) in
  if decide (Search.getInputCloud_size tree ≠ cloud_size)
  then Done ([TreeCloudSizeMismatch (Search.getInputCloud_size tree) cloud_size],
             clusters)
  else
    let nn_start_idx := nn_start_idx tree in
    let processed := replicate cloud_size false in
    '(_, _, clusters') ←
      cloud_loop cloud additional_filter_criteria tree tolerance
        min_pts_per_cluster max_pts_per_cluster nn_start_idx it fuel
        processed clusters;
    Done ([], clusters').

(** Modelled from the spec: the class [ConstCloudIterator] is declared
    outside the sources at hand; over a whole cloud it "iterates the cloud
    view in its natural order", each point being identified by its
    position. *)
Definition ConstCloudIterator (cloud : PointCloud) : list index_t :=
  seq 0 (length (PointCloud.points cloud)).

(** The overload over a whole cloud (lines 150-159). *)
Definition extractEuclideanClusters (fuel : nat)
    (cloud : PointCloud) (additional_filter_criteria : FunctorT)
    (tree : Search) (tolerance : float) (clusters : list PointIndices)
    (min_pts_per_cluster max_pts_per_cluster : nat)
    : outcome (list Diagnostic * list PointIndices) :=
  let it := ConstCloudIterator cloud in
  extractEuclideanClusters_it fuel it cloud additional_filter_criteria tree
    tolerance clusters min_pts_per_cluster max_pts_per_cluster.

(** The overload over a subset of the cloud (lines 176-193).  The values
    [getCurrentIndex ()] takes for an iterator built from [(cloud, indices)]
    are not fixed by the sources at hand: [ConstCloudIterator_indices] is a
    parameter. *)
Definition extractEuclideanClusters_indices
    (ConstCloudIterator_indices : PointCloud -> Indices -> list index_t)
    (fuel : nat) (cloud : PointCloud) (indices : Indices)
    (additional_filter_criteria : FunctorT)
    (tree : Search) (tolerance : float) (clusters : list PointIndices)
    (min_pts_per_cluster max_pts_per_cluster : nat)
    : outcome (list Diagnostic * list PointIndices) :=
  match Search.getIndices_size tree with
  | None => Undefined
  | Some tree_indices_size =>
      if decide (tree_indices_size ≠ length indices)
      then Done ([TreeIndicesSizeMismatch tree_indices_size (length indices)],
                 clusters)
      else
        let it := ConstCloudIterator_indices cloud indices in
        extractEuclideanClusters_it fuel it cloud additional_filter_criteria
          tree tolerance clusters min_pts_per_cluster max_pts_per_cluster
  end.
End Engine.

(** ** The normal-deviation variant *)

(** The three components [getNormalVector3fMap ()] exposes. *)
Record Normal : Type :=
  { normal_x : R; normal_y : R; normal_z : R }.

#[global] Instance Rlt_decision : RelDecision Rlt := Rlt_dec.

Section Normals.
Context {PCLHeader PointT float : Type}.
Local Open Scope R_scope.

Local Abbreviation PointCloud := (PointCloud.t PCLHeader PointT).
Local Abbreviation PointIndices := (PointIndices.t PCLHeader).
Local Abbreviation Search := (Search.t float).

(** [a.getNormalVector3fMap ().dot (b.getNormalVector3fMap ())] *)
Definition dot (a b : Normal) : R :=
  normal_x a * normal_x b + normal_y a * normal_y b + normal_z a * normal_z b.

(** [std::min (std::abs (max_angle), M_PI)] *)
Definition clamp_angle (max_angle : R) : R := Rmin (Rabs max_angle) PI.

(** The lambda of lines 260-263. *)
Definition normal_deviation_filter
    (normals : PointCloud.t PCLHeader Normal) (cos_max_angle : R)
    : @FunctorT PCLHeader PointT :=
  fun _ i nn_indices j =>
    n_i ← PointCloud.points normals !! i;
    nn_j ← nn_indices !! j;
    n_j ← PointCloud.points normals !! nn_j;
    let dot_p := dot n_i n_j in
    Some (bool_decide (Rabs dot_p < cos_max_angle)).

(** The lambda of lines 302-306. *)
Definition normal_deviation_filter_indices
    (normals : PointCloud.t PCLHeader Normal) (indices : Indices)
    (cos_max_angle : R) : @FunctorT PCLHeader PointT :=
  fun _ i nn_indices j =>
    i' ← indices !! i;
    n_i ← PointCloud.points normals !! i';
    nn_j ← nn_indices !! j;
    nn_j' ← indices !! nn_j;
    n_j ← PointCloud.points normals !! nn_j';
    let dot_p := dot n_i n_j in
    Some (bool_decide (Rabs dot_p < cos_max_angle)).

(** The overload with normals over a whole cloud (lines 244-265). *)
Definition extractEuclideanClusters_normals (fuel : nat)
    (cloud : PointCloud) (normals : PointCloud.t PCLHeader Normal)
    (tolerance : float) (tree : Search) (clusters : list PointIndices)
    (max_angle : R) (min_pts_per_cluster max_pts_per_cluster : nat)
    : outcome (list Diagnostic * list PointIndices) :=
  let cloud_size := length (PointCloud.points cloud) in
  let normals_size := length (PointCloud.points normals) in
  if decide (cloud_size ≠ normals_size)
  then Done ([NormalsSizeMismatch cloud_size normals_size], clusters)
  else
    let max_angle := clamp_angle max_angle in
    let cos_max_angle := cos max_angle in
    extractEuclideanClusters fuel cloud
      (normal_deviation_filter normals cos_max_angle) tree tolerance clusters
      min_pts_per_cluster max_pts_per_cluster.

(** The overload with normals over a subset (lines 283-309). *)
Definition extractEuclideanClusters_normals_indices
    (ConstCloudIterator_indices : PointCloud -> Indices -> list index_t)
    (fuel : nat)
    (cloud : PointCloud) (normals : PointCloud.t PCLHeader Normal)
    (indices : Indices) (tree : Search) (tolerance : float)
    (clusters : list PointIndices)
    (max_angle : R) (min_pts_per_cluster max_pts_per_cluster : nat)
    : outcome (list Diagnostic * list PointIndices) :=
  let cloud_size := length (PointCloud.points cloud) in
  let normals_size := length (PointCloud.points normals) in
  if decide (cloud_size ≠ normals_size)
  then Done ([NormalsSizeMismatch cloud_size normals_size], clusters)
  else
    match indices with
    | [] => Done ([], clusters)
    | _ :: _ =>
        let max_angle := clamp_angle max_angle in
        let cos_max_angle := cos max_angle in
        extractEuclideanClusters_indices ConstCloudIterator_indices fuel
          cloud indices
          (normal_deviation_filter_indices normals indices cos_max_angle)
          tree tolerance clusters min_pts_per_cluster max_pts_per_cluster
    end.
End Normals.

(** [comparePointClusters] *)
Definition comparePointClusters {PCLHeader}
    (a b : PointIndices.t PCLHeader) : bool :=
  length (PointIndices.indices a) <? length (PointIndices.indices b).


(** ** The class [EuclideanClusterExtraction]

    The configuration the class holds and its accessors.  [tree_] is a
    shared pointer, null until a tree is set; the two sizes are [int]s,
    stored as they are given. *)
Module EuclideanClusterExtraction.
Record t (float : Type) : Type :=
  mk { tree_ : option (Search.t float);
       cluster_tolerance_ : R;
       min_pts_per_cluster_ : Z;
       max_pts_per_cluster_ : Z }.
Arguments mk {float} _ _ _ _.
Arguments tree_ {float} _.
Arguments cluster_tolerance_ {float} _.
Arguments min_pts_per_cluster_ {float} _.
Arguments max_pts_per_cluster_ {float} _.

(** [std::numeric_limits<int>::max ()] *)
Definition int_max : Z := 2 ^ 31 - 1.

(** The empty constructor. *)
Definition new {float} : t float := mk None 0%R 1%Z int_max.

Definition setSearchMethod {float} (tree : option (Search.t float))
    (self : t float) : t float :=
  mk tree (cluster_tolerance_ self) (min_pts_per_cluster_ self)
    (max_pts_per_cluster_ self).

Definition getSearchMethod {float} (self : t float) : option (Search.t float) :=
  tree_ self.

Definition setClusterTolerance {float} (tolerance : R) (self : t float)
    : t float :=
  mk (tree_ self) tolerance (min_pts_per_cluster_ self)
    (max_pts_per_cluster_ self).

Definition getClusterTolerance {float} (self : t float) : R :=
  cluster_tolerance_ self.

Definition setMinClusterSize {float} (min_cluster_size : Z) (self : t float)
    : t float :=
  mk (tree_ self) (cluster_tolerance_ self) min_cluster_size
    (max_pts_per_cluster_ self).

Definition getMinClusterSize {float} (self : t float) : Z :=
  min_pts_per_cluster_ self.

Definition setMaxClusterSize {float} (max_cluster_size : Z) (self : t float)
    : t float :=
  mk (tree_ self) (cluster_tolerance_ self) (min_pts_per_cluster_ self)
    max_cluster_size.

Definition getMaxClusterSize {float} (self : t float) : Z :=
  max_pts_per_cluster_ self.

(** A call of one of the four setters, and a sequence of such calls made on
    an object, first call first. *)
Inductive call (float : Type) : Type :=
| SetSearchMethod (tree : option (Search.t float))
| SetClusterTolerance (tolerance : R)
| SetMinClusterSize (min_cluster_size : Z)
| SetMaxClusterSize (max_cluster_size : Z).
Arguments SetSearchMethod {float} _.
Arguments SetClusterTolerance {float} _.
Arguments SetMinClusterSize {float} _.
Arguments SetMaxClusterSize {float} _.

Definition perform {float} (self : t float) (c : call float) : t float :=
  match c with
  | SetSearchMethod tree => setSearchMethod tree self
  | SetClusterTolerance tolerance => setClusterTolerance tolerance self
  | SetMinClusterSize n => setMinClusterSize n self
  | SetMaxClusterSize n => setMaxClusterSize n self
  end.

Definition perform_all {float} (calls : list (call float)) (self : t float)
    : t float :=
  foldl perform self calls.

(** The argument of a call, if it is a call of the setter named. *)
Definition tree_set {float} (c : call float) : option (option (Search.t float)) :=
  match c with SetSearchMethod tree => Some tree | _ => None end.
Definition tolerance_set {float} (c : call float) : option R :=
  match c with SetClusterTolerance tolerance => Some tolerance | _ => None end.
Definition min_set {float} (c : call float) : option Z :=
  match c with SetMinClusterSize n => Some n | _ => None end.
Definition max_set {float} (c : call float) : option Z :=
  match c with SetMaxClusterSize n => Some n | _ => None end.
End EuclideanClusterExtraction.

(** ** Vocabulary of the proofs *)

(** Number of points not yet marked in the [processed] vector. *)
Definition unprocessed (processed : list bool) : nat :=
  length (filter (λ b : bool, ¬ b) processed).

(** [marks processed processed' new]: going from [processed] to [processed']
    marked exactly the points of [new], each of them once, and each of them
    unmarked before. *)
Record marks (processed processed' : list bool) (new : Indices) : Prop :=
  { marks_NoDup : NoDup new;
    marks_length : length processed' = length processed;
    marks_lookup : ∀ p, processed' !! p
                        = if decide (p ∈ new) then Some true else processed !! p;
    marks_fresh : ∀ p, p ∈ new → processed !! p = Some false;
    marks_count : unprocessed processed = unprocessed processed' + length new }.

(** [search_in_range tree tolerance start n]: every neighbour a successful
    radius query reports from position [start] on is a position of a vector
    of [n] elements. *)
Definition search_in_range {float} (tree : Search.t float) (tolerance : float)
    (start n : nat) : Prop :=
  ∀ member, (Search.radiusSearch tree member tolerance).1 ≠ 0 →
    ∀ k, k ∈ drop start (Search.radiusSearch tree member tolerance).2 → k < n.

(** [reporting sorted tree]: the index [tree], answering every query as
    before, with [getSortedResults ()] returning [sorted]. *)
Definition reporting {float} (sorted : bool) (tree : Search.t float)
    : Search.t float :=
  Search.mk (Search.getInputCloud_size tree) (Search.getIndices_size tree)
    sorted (Search.radiusSearch tree).

(** [self_first tree tolerance]: whenever a radius query succeeds, the first
    neighbour it reports, if it reports any, is the query point. *)
Definition self_first {float} (tree : Search.t float) (tolerance : float)
    : Prop :=
  ∀ member k,
    (Search.radiusSearch tree member tolerance).1 ≠ 0 →
    head (Search.radiusSearch tree member tolerance).2 = Some k →
    k = member.

(** Two clusterings group the points in the same way. *)
Definition same_partition {PCLHeader} (a b : list (PointIndices.t PCLHeader))
    : Prop :=
  ∀ p q : index_t,
    (∃ c, c ∈ a ∧ p ∈ PointIndices.indices c ∧ q ∈ PointIndices.indices c)
    ↔ (∃ c, c ∈ b ∧ p ∈ PointIndices.indices c ∧ q ∈ PointIndices.indices c).

(** [exhausted_queue ... it fuel processed clusters seed_queue]: in the run
    of the cloud loop over [it] from the state [(fuel, processed, clusters)],
    some iteration found its point unprocessed, seeded a queue with it and
    grew that queue to exhaustion as [seed_queue]. *)
Definition exhausted_queue {PCLHeader PointT float}
    (cloud : PointCloud.t PCLHeader PointT) (f : FunctorT)
    (tree : Search.t float) (tolerance : float) (min_pts max_pts : nat)
    (start : index_t) (it : list index_t) (fuel : nat) (processed : list bool)
    (clusters : list (PointIndices.t PCLHeader)) (seed_queue : Indices)
    : Prop :=
  ∃ it1 cur it2 fuel1 processed1 clusters1 fuel2 processed2,
    it = it1 ++ cur :: it2
    ∧ cloud_loop cloud f tree tolerance min_pts max_pts start it1
        fuel processed clusters = Done (fuel1, processed1, clusters1)
    ∧ processed1 !! cur = Some false
    ∧ queue_loop cloud f tree tolerance start cur fuel1 0
        (<[cur := true]> processed1) [cur] = Done (fuel2, processed2, seed_queue).

(** [reachable cloud f tree tolerance start seed p]: [p] is the seed, or a
    successful radius search around a point reachable from the seed reported
    [p] at a position from [start] on and the functor, called for the seed
    with that answer and that position, accepted it. *)
Inductive reachable {PCLHeader PointT float}
    (cloud : PointCloud.t PCLHeader PointT) (f : FunctorT)
    (tree : Search.t float) (tolerance : float) (start seed : index_t)
    : index_t → Prop :=
| reachable_seed : reachable cloud f tree tolerance start seed seed
| reachable_step (member j k : index_t) :
    reachable cloud f tree tolerance start seed member →
    (Search.radiusSearch tree member tolerance).1 ≠ 0 →
    start ≤ j →
    (Search.radiusSearch tree member tolerance).2 !! j = Some k →
    f cloud seed (Search.radiusSearch tree member tolerance).2 j = Some true →
    reachable cloud f tree tolerance start seed k.

(** ** Concrete inputs

    Clouds of two points; headers are sequence numbers, the coordinates of
    a point play no role beyond what the index answers. *)

Definition cloud2 : PointCloud.t nat unit := PointCloud.mk 7 [(); ()].

(** Two points within the tolerance of each other; every query reports the
    query point first and the other point second. *)
Definition tree_pair (sorted : bool) : Search.t unit :=
  Search.mk 2 None sorted
    (λ member _,
       match member with
       | 0 => (2, [0; 1])
       | 1 => (2, [1; 0])
       | _ => (0, [])
       end).

(** Two points at the same position: a query is made by coordinates, so both
    queries get the same answer, here point 1 before point 0 (both at
    distance zero). *)
Definition tree_dup : Search.t unit :=
  Search.mk 2 None false (λ _ _, (2, [1; 0])).

(** An index whose searches all fail. *)
Definition tree_failing : Search.t unit :=
  Search.mk 2 None false (λ _ _, (0, [])).

(** An index built over three points. *)
Definition tree_three : Search.t unit :=
  Search.mk 3 (Some 3) false (λ _ _, (0, [])).

(** Three points: 0 and 1 within the tolerance of each other, 2 on its own. *)
Definition cloud3 : PointCloud.t nat unit := PointCloud.mk 7 [(); (); ()].

Definition tree_pair_and_single : Search.t unit :=
  Search.mk 3 None true
    (λ member _,
       match member with
       | 0 => (2, [0; 1])
       | 1 => (2, [1; 0])
       | _ => (1, [2])
       end).

(** Four points in a row: the search around 1 reports 0 and 2, the search
    around 2 reports 3, and the search around 0 fails. *)
Definition cloud4 : PointCloud.t nat unit := PointCloud.mk 7 [(); (); (); ()].

Definition tree_gap : Search.t unit :=
  Search.mk 4 None true
    (λ member _,
       match member with
       | 0 => (0, [])
       | 1 => (3, [1; 0; 2])
       | 2 => (2, [2; 3])
       | _ => (1, [3])
       end).

Definition accept_all : @FunctorT nat unit := λ _ _ _ _, Some true.

Definition normals_perpendicular : PointCloud.t nat Normal :=
  PointCloud.mk 7 [ {| normal_x := 1; normal_y := 0; normal_z := 0 |};
                    {| normal_x := 0; normal_y := 1; normal_z := 0 |} ].

Definition normals_identical : PointCloud.t nat Normal :=
  PointCloud.mk 7 [ {| normal_x := 1; normal_y := 0; normal_z := 0 |};
                    {| normal_x := 1; normal_y := 0; normal_z := 0 |} ].

(** ** Properties of the loops *)

Lemma unprocessed_cons (b : bool) (l : list bool) :
  unprocessed (b :: l) = (if b then 0 else 1) + unprocessed l.
Proof.
  unfold unprocessed. destruct b.
  - rewrite filter_cons_False; [done|]. intros H; apply H; exact I.
  - rewrite filter_cons_True; [done|]. intros [].
Qed.

Lemma unprocessed_insert (processed : list bool) (k : nat) :
  processed !! k = Some false →
  unprocessed processed = S (unprocessed (<[k := true]> processed)).
Proof.
  revert k.
  induction processed as [|b l IH]; intros [|k] Hk; simplify_eq/=;
    rewrite !unprocessed_cons; [done|].
  rewrite (IH k Hk). lia.
Qed.

Lemma unprocessed_replicate (n : nat) : unprocessed (replicate n false) = n.
Proof.
  induction n as [|n IH]; [done|]; simpl.
  rewrite unprocessed_cons. lia.
Qed.

Lemma elem_of_concat {A} (x : A) (ls : list (list A)) :
  x ∈ concat ls ↔ ∃ l, l ∈ ls ∧ x ∈ l.
Proof.
  rewrite list_elem_of_In, in_concat.
  split; intros (l & H1 & H2); exists l; by rewrite ?list_elem_of_In in *.
Qed.

Lemma indices_fmap_mk {PCLHeader} (h : PCLHeader) (queues : list Indices) :
  PointIndices.indices <$> (PointIndices.mk h <$> queues) = queues.
Proof. induction queues as [|q queues IH]; simpl; [done|]. by f_equal. Qed.

Lemma marks_refl (processed : list bool) : marks processed processed [].
Proof.
  split; [constructor|done| | |simpl; lia].
  - intros p. case_decide as H; [by apply elem_of_nil in H|done].
  - intros p H. by apply elem_of_nil in H.
Qed.

Lemma marks_one (processed : list bool) (k : nat) :
  processed !! k = Some false → marks processed (<[k := true]> processed) [k].
Proof.
  intros Hk. split.
  - apply NoDup_singleton.
  - apply length_insert.
  - intros p. case_decide as H.
    + apply list_elem_of_singleton in H as ->.
      apply list_lookup_insert_eq. by eapply lookup_lt_Some.
    + apply list_lookup_insert_ne. intros ->. apply H, list_elem_of_singleton. done.
  - intros p ->%list_elem_of_singleton. done.
  - rewrite (unprocessed_insert _ _ Hk). simpl. lia.
Qed.

Lemma marks_trans (a b c : list bool) (n1 n2 : Indices) :
  marks a b n1 → marks b c n2 → marks a c (n1 ++ n2).
Proof.
  intros [Hd1 Hl1 Hk1 Hf1 Hc1] [Hd2 Hl2 Hk2 Hf2 Hc2].
  assert (Hdisj : ∀ p, p ∈ n1 → p ∉ n2).
  { intros p Hp1 Hp2. apply Hf2 in Hp2. rewrite Hk1 in Hp2.
    by rewrite decide_True in Hp2. }
  split.
  - apply NoDup_app; auto.
  - congruence.
  - intros p. rewrite Hk2, Hk1.
    destruct (decide (p ∈ n2)) as [H2|H2], (decide (p ∈ n1)) as [H1|H1];
      (rewrite decide_True by (apply elem_of_app; auto)) ||
      (rewrite decide_False by (intros [?|?]%elem_of_app; auto)); done.
  - intros p [H1|H2]%elem_of_app; [auto|].
    pose proof (Hf2 _ H2) as Hb. rewrite Hk1 in Hb.
    by case_decide.
  - rewrite length_app. lia.
Qed.

Lemma marks_marked (a b : list bool) (new : Indices) (p : nat) :
  marks a b new → p ∈ new → b !! p = Some true.
Proof. intros [_ _ Hk _ _] Hp. rewrite Hk. by rewrite decide_True. Qed.

Lemma marks_mono (a b : list bool) (new : Indices) (p : nat) :
  marks a b new → a !! p = Some true → b !! p = Some true.
Proof. intros [_ _ Hk _ _] Hp. rewrite Hk. by case_decide. Qed.

Section LoopProperties.
Context {PCLHeader PointT float : Type}.
Context (cloud : PointCloud.t PCLHeader PointT)
        (f : @FunctorT PCLHeader PointT)
        (tree : Search.t float) (tolerance : float)
        (min_pts max_pts : nat).

Lemma neighbor_loop_not_OutOfFuel cur nn rest j processed queue :
  neighbor_loop cloud f cur nn rest j processed queue ≠ OutOfFuel.
Proof.
  revert j processed queue.
  induction rest as [|k rest IH]; intros j processed queue; simpl; [done|].
  destruct (processed !! k) as [[]|]; [auto| |done].
  destruct (f cloud cur nn j) as [[]|]; auto.
Qed.

Lemma neighbor_loop_marks cur nn rest j processed queue processed' queue' :
  neighbor_loop cloud f cur nn rest j processed queue = Done (processed', queue') →
  ∃ new, queue' = queue ++ new ∧ marks processed processed' new ∧ new ⊆ rest.
Proof.
  revert j processed queue processed' queue'.
  induction rest as [|k rest IH]; intros j processed queue processed' queue'; simpl.
  - intros [= <- <-]. exists []. rewrite app_nil_r.
    split; [done|]. split; [apply marks_refl|done].
  - destruct (processed !! k) as [[]|] eqn:Hk; [| |done].
    + intros (new & -> & Hm & Hsub)%IH. exists new.
      split; [done|]. split; [done|]. by apply list_subseteq_cons.
    + destruct (f cloud cur nn j) as [[]|]; [| |done].
      * intros (new & -> & Hm & Hsub)%IH. exists (k :: new).
        rewrite <- app_assoc. split; [done|]. split.
        -- apply (marks_trans _ (<[k := true]> processed) _ [k] new);
             [by apply marks_one|done].
        -- intros x [->|Hx]%elem_of_cons; [left|right; auto].
      * intros (new & -> & Hm & Hsub)%IH. exists new.
        split; [done|]. split; [done|]. by apply list_subseteq_cons.
Qed.

Lemma queue_loop_marks start cur fuel sq_idx processed queue fuel' processed' queue' :
  queue_loop cloud f tree tolerance start cur fuel sq_idx processed queue
    = Done (fuel', processed', queue') →
  ∃ new, queue' = queue ++ new ∧ marks processed processed' new
         ∧ fuel = fuel' + (length queue' - sq_idx).
Proof.
  revert sq_idx processed queue fuel' processed' queue'.
  induction fuel as [|fuel IH];
    intros sq_idx processed queue fuel' processed' queue'; simpl.
  - destruct (queue !! sq_idx) eqn:Hq; [done|].
    intros [= <- <- <-]. exists []. rewrite app_nil_r.
    apply lookup_ge_None in Hq.
    split; [done|]. split; [apply marks_refl|lia].
  - destruct (queue !! sq_idx) as [member|] eqn:Hq.
    + apply lookup_lt_Some in Hq.
      destruct (Search.radiusSearch tree member tolerance) as [found nn].
      destruct (found =? 0).
      * intros (new & -> & Hm & Hf)%IH. exists new.
        rewrite length_app in *. split; [done|]. split; [done|lia].
      * destruct (neighbor_loop _ _ _ _ _ _ _ _) as [[p1 q1]| |] eqn:Hn; [|done..].
        apply neighbor_loop_marks in Hn as (new1 & -> & Hm1 & _). simpl.
        intros (new & -> & Hm & Hf)%IH. exists (new1 ++ new).
        rewrite !length_app in *. rewrite app_assoc. split; [done|].
        split; [by eapply marks_trans|lia].
    + intros [= <- <- <-]. exists []. rewrite app_nil_r.
      apply lookup_ge_None in Hq.
      split; [done|]. split; [apply marks_refl|lia].
Qed.

Lemma queue_loop_fuel start cur fuel sq_idx processed queue :
  length queue - sq_idx + unprocessed processed ≤ fuel →
  queue_loop cloud f tree tolerance start cur fuel sq_idx processed queue
    ≠ OutOfFuel.
Proof.
  revert sq_idx processed queue.
  induction fuel as [|fuel IH]; intros sq_idx processed queue Hfuel; simpl.
  - destruct (queue !! sq_idx) eqn:Hq; [|done].
    apply lookup_lt_Some in Hq. lia.
  - destruct (queue !! sq_idx) as [member|] eqn:Hq; [|done].
    apply lookup_lt_Some in Hq.
    destruct (Search.radiusSearch tree member tolerance) as [found nn].
    destruct (found =? 0); [apply IH; lia|].
    destruct (neighbor_loop _ _ _ _ _ _ _ _) as [[p1 q1]| |] eqn:Hn; simpl.
    + apply neighbor_loop_marks in Hn as (new1 & -> & [_ _ _ _ Hc] & _).
      apply IH. rewrite length_app. lia.
    + done.
    + by apply neighbor_loop_not_OutOfFuel in Hn.
Qed.

Lemma cloud_loop_app start it1 it2 fuel processed clusters :
  cloud_loop cloud f tree tolerance min_pts max_pts start (it1 ++ it2)
    fuel processed clusters
  = '(fuel1, processed1, clusters1) ←
      cloud_loop cloud f tree tolerance min_pts max_pts start it1
        fuel processed clusters;
    cloud_loop cloud f tree tolerance min_pts max_pts start it2
      fuel1 processed1 clusters1.
Proof.
  revert fuel processed clusters.
  induction it1 as [|cur it1 IH]; intros fuel processed clusters; simpl; [done|].
  unfold at_. destruct (processed !! cur) as [[]|]; simpl; [auto| |done].
  destruct (queue_loop _ _ _ _ _ _ _ _ _ _) as [[[f1 p1] q1]| |]; simpl; [|done..].
  destruct (satisfactory _ _ _); auto.
Qed.

Lemma cloud_loop_marks start it fuel processed clusters fuel' processed' clusters' :
  cloud_loop cloud f tree tolerance min_pts max_pts start it
    fuel processed clusters = Done (fuel', processed', clusters') →
  ∃ queues : list Indices,
    clusters' = clusters ++
      (PointIndices.mk (PointCloud.header cloud)
         <$> filter (λ q, satisfactory min_pts max_pts q) queues)
    ∧ marks processed processed' (concat queues)
    ∧ fuel = fuel' + length (concat queues).
Proof.
  revert fuel processed clusters fuel' processed' clusters'.
  induction it as [|cur it IH];
    intros fuel processed clusters fuel' processed' clusters'; simpl.
  - intros [= <- <- <-]. exists []. simpl. rewrite app_nil_r.
    split; [done|]. split; [apply marks_refl|lia].
  - unfold at_. destruct (processed !! cur) as [[]|] eqn:Hcur; simpl; [auto| |done].
    destruct (queue_loop _ _ _ _ _ _ _ _ _ _) as [[[f1 p1] q1]| |] eqn:Hq;
      simpl; [|done..].
    apply queue_loop_marks in Hq as (new & -> & Hm & Hf).
    assert (Hm' : marks processed p1 ([cur] ++ new))
      by (eapply marks_trans; [by apply marks_one|done]).
    rewrite Nat.sub_0_r in Hf.
    destruct (satisfactory _ _ _) eqn:Hsat.
    + intros (queues & -> & Hm2 & Hf2)%IH. exists (([cur] ++ new) :: queues).
      rewrite filter_cons_True by (by rewrite Hsat). rewrite fmap_cons.
      rewrite <- app_assoc. split; [done|].
      split; [by eapply marks_trans|]. simpl in *. rewrite length_app. lia.
    + intros (queues & -> & Hm2 & Hf2)%IH. exists (([cur] ++ new) :: queues).
      rewrite filter_cons_False by (rewrite Hsat; intros []). split; [done|].
      split; [by eapply marks_trans|]. simpl in *. rewrite length_app. lia.
Qed.

Lemma cloud_loop_fuel start it fuel processed clusters :
  unprocessed processed ≤ fuel →
  cloud_loop cloud f tree tolerance min_pts max_pts start it
    fuel processed clusters ≠ OutOfFuel.
Proof.
  revert fuel processed clusters.
  induction it as [|cur it IH]; intros fuel processed clusters Hfuel; simpl; [done|].
  unfold at_. destruct (processed !! cur) as [[]|] eqn:Hcur; simpl; [auto| |done].
  pose proof (unprocessed_insert _ _ Hcur) as Hins.
  destruct (queue_loop _ _ _ _ _ _ _ _ _ _) as [[[f1 p1] q1]| |] eqn:Hq; simpl.
  - apply queue_loop_marks in Hq as (new & -> & [_ _ _ _ Hc] & Hf).
    rewrite length_app in Hf. simpl in Hf.
    destruct (satisfactory _ _ _); apply IH; lia.
  - done.
  - apply queue_loop_fuel in Hq; [done|]. simpl. lia.
Qed.

Lemma seed_marks start cur fuel processed fuel' processed' queue :
  processed !! cur = Some false →
  queue_loop cloud f tree tolerance start cur fuel 0
    (<[cur := true]> processed) [cur] = Done (fuel', processed', queue) →
  ∃ new, queue = cur :: new ∧ marks processed processed' (cur :: new)
         ∧ fuel = fuel' + length queue.
Proof.
  intros Hcur (new & -> & Hm & Hf)%queue_loop_marks. exists new.
  split; [done|]. rewrite Nat.sub_0_r in Hf. split; [|done].
  apply (marks_trans _ (<[cur := true]> processed) _ [cur] new);
    [by apply marks_one|done].
Qed.

Lemma NoDup_concat_filter (P : Indices → Prop) `{!∀ q, Decision (P q)}
    (queues : list Indices) :
  NoDup (concat queues) → NoDup (concat (filter P queues)).
Proof.
  induction queues as [|q queues IH]; simpl; [done|].
  intros (Hq & Hdisj & Hrest)%NoDup_app.
  destruct (decide (P q)).
  - rewrite filter_cons_True by done. simpl. apply NoDup_app.
    split; [done|]. split; [|auto].
    intros x Hx (q' & Hq' & Hin)%elem_of_concat. apply (Hdisj x Hx).
    apply elem_of_concat. exists q'. split; [|done].
    by apply list_elem_of_filter in Hq' as [_ ?].
  - rewrite filter_cons_False by done. auto.
Qed.

(** What a complete run of the cloud loop adds to [clusters]. *)
Lemma cloud_loop_added start it fuel processed clusters fuel' processed' clusters' :
  cloud_loop cloud f tree tolerance min_pts max_pts start it
    fuel processed clusters = Done (fuel', processed', clusters') →
  ∃ added,
    clusters' = clusters ++ added
    ∧ NoDup (concat (PointIndices.indices <$> added))
    ∧ (∀ c p, c ∈ added → p ∈ PointIndices.indices c →
         processed !! p = Some false ∧ processed' !! p = Some true)
    ∧ (∀ c, c ∈ added →
         PointIndices.header c = PointCloud.header cloud
         ∧ satisfactory min_pts max_pts (PointIndices.indices c) = true)
    ∧ (∀ p, processed !! p = Some true → processed' !! p = Some true).
Proof.
  intros (queues & -> & Hm & _)%cloud_loop_marks.
  eexists. split; [done|].
  rewrite indices_fmap_mk.
  split; [apply NoDup_concat_filter, Hm|]. split; [|split].
  - intros c p (q & -> & [_ Hq]%list_elem_of_filter)%list_elem_of_fmap Hp.
    simpl in Hp.
    assert (p ∈ concat queues) by (apply elem_of_concat; eauto).
    split; [by eapply marks_fresh|by eapply marks_marked].
  - intros c (q & -> & [Hsat _]%list_elem_of_filter)%list_elem_of_fmap.
    simpl. split; [done|]. by apply Is_true_true.
  - intros p. by apply marks_mono with (concat queues).
Qed.

(** *** Skipping the first neighbour *)

Lemma queue_loop_start cur fuel sq_idx processed queue :
  self_first tree tolerance →
  (∀ m, m ∈ queue → processed !! m = Some true) →
  queue_loop cloud f tree tolerance 1 cur fuel sq_idx processed queue
  = queue_loop cloud f tree tolerance 0 cur fuel sq_idx processed queue.
Proof.
  intros Hself. revert sq_idx processed queue.
  induction fuel as [|fuel IH]; intros sq_idx processed queue Hinv; simpl; [done|].
  destruct (queue !! sq_idx) as [member|] eqn:Hq; [|done].
  specialize (Hself member).
  destruct (Search.radiusSearch tree member tolerance) as [found nn].
  destruct (found =? 0) eqn:Hfound; [auto|].
  apply Nat.eqb_neq in Hfound. simpl in Hself.
  assert (Hn : neighbor_loop cloud f cur nn (drop 1 nn) 1 processed queue
               = neighbor_loop cloud f cur nn (drop 0 nn) 0 processed queue).
  { destruct nn as [|k rest]; [done|]. simpl.
    rewrite (Hself k Hfound eq_refl).
    rewrite (Hinv member) by (by eapply list_elem_of_lookup_2).
    by rewrite drop_0. }
  rewrite Hn.
  destruct (neighbor_loop _ _ _ _ (drop 0 nn) _ _ _) as [[p1 q1]| |] eqn:Hrun;
    simpl; [|done..].
  apply neighbor_loop_marks in Hrun as (new & -> & Hm & _).
  apply IH. intros m [Hm1|Hm2]%elem_of_app.
  - eapply marks_mono; eauto.
  - eapply marks_marked; eauto.
Qed.

Lemma cloud_loop_start it fuel processed clusters :
  self_first tree tolerance →
  cloud_loop cloud f tree tolerance min_pts max_pts 1 it fuel processed clusters
  = cloud_loop cloud f tree tolerance min_pts max_pts 0 it fuel processed clusters.
Proof.
  intros Hself. revert fuel processed clusters.
  induction it as [|cur it IH]; intros fuel processed clusters; simpl; [done|].
  unfold at_. destruct (processed !! cur) as [[]|] eqn:Hcur; simpl; [auto| |done].
  rewrite queue_loop_start; [|done|].
  - destruct (queue_loop _ _ _ _ _ _ _ _ _ _) as [[[f1 p1] q1]| |]; simpl;
      [|done..].
    destruct (satisfactory _ _ _); auto.
  - intros m ->%list_elem_of_singleton.
    apply list_lookup_insert_eq. by eapply lookup_lt_Some.
Qed.

(** *** Runs without out-of-range reads *)

Lemma neighbor_loop_defined cur nn rest j processed queue :
  (∀ cur nn j, is_Some (f cloud cur nn j)) →
  (∀ k, k ∈ rest → k < length processed) →
  ∃ r, neighbor_loop cloud f cur nn rest j processed queue = Done r.
Proof.
  intros Hf. revert j processed queue.
  induction rest as [|k rest IH]; intros j processed queue Hin; simpl; [eauto|].
  assert (Hrest : ∀ x, x ∈ rest → x < length processed)
    by (intros x Hx; apply Hin; by right).
  destruct (lookup_lt_is_Some_2 processed k) as [[] ->]; [apply Hin; left|auto|].
  destruct (Hf cur nn j) as [[] ->]; [|auto].
  apply IH. by rewrite length_insert.
Qed.

Lemma queue_loop_defined n start cur fuel sq_idx processed queue :
  (∀ cur nn j, is_Some (f cloud cur nn j)) →
  search_in_range tree tolerance start n →
  length processed = n →
  length queue - sq_idx + unprocessed processed ≤ fuel →
  ∃ r, queue_loop cloud f tree tolerance start cur fuel sq_idx processed queue
       = Done r.
Proof.
  intros Hf Htree. revert sq_idx processed queue.
  induction fuel as [|fuel IH]; intros sq_idx processed queue Hlen Hfuel; simpl.
  - destruct (queue !! sq_idx) eqn:Hq; [|eauto].
    apply lookup_lt_Some in Hq. lia.
  - destruct (queue !! sq_idx) as [member|] eqn:Hq; [|eauto].
    apply lookup_lt_Some in Hq. specialize (Htree member).
    destruct (Search.radiusSearch tree member tolerance) as [found nn].
    destruct (found =? 0) eqn:Hfound; [apply IH; [done|lia]|].
    apply Nat.eqb_neq in Hfound. simpl in Htree.
    destruct (neighbor_loop_defined cur nn (drop start nn) start processed queue)
      as [[p1 q1] Hn]; [done|by rewrite Hlen; apply Htree|].
    rewrite Hn. simpl.
    apply neighbor_loop_marks in Hn as (new1 & -> & [_ Hl _ _ Hc] & _).
    apply IH; [congruence|]. rewrite length_app. lia.
Qed.

Lemma cloud_loop_defined n start it fuel processed clusters :
  (∀ cur nn j, is_Some (f cloud cur nn j)) →
  search_in_range tree tolerance start n →
  (∀ cur, cur ∈ it → cur < n) →
  length processed = n →
  unprocessed processed ≤ fuel →
  ∃ r, cloud_loop cloud f tree tolerance min_pts max_pts start it
         fuel processed clusters = Done r.
Proof.
  intros Hf Htree. revert fuel processed clusters.
  induction it as [|cur it IH]; intros fuel processed clusters Hit Hlen Hfuel;
    simpl; [eauto|].
  assert (Hit' : ∀ x, x ∈ it → x < n) by (intros x Hx; apply Hit; by right).
  unfold at_.
  destruct (lookup_lt_is_Some_2 processed cur) as [[] Hcur];
    [rewrite Hlen; apply Hit; left|rewrite Hcur; simpl; auto|].
  rewrite Hcur. simpl.
  pose proof (unprocessed_insert _ _ Hcur) as Hins.
  destruct (queue_loop_defined n start cur fuel 0 (<[cur := true]> processed) [cur])
    as [[[f1 p1] q1] Hq]; [done|done|by rewrite length_insert|simpl; lia|].
  rewrite Hq. simpl.
  apply queue_loop_marks in Hq as (new & -> & [_ Hl _ _ Hc] & Hfq).
  rewrite length_insert in Hl. rewrite length_app in Hfq. simpl in Hfq.
  destruct (satisfactory _ _ _); apply IH; (done || congruence || lia).
Qed.

End LoopProperties.

(** *** Functors that agree, functors that never accept *)

Section Functors.
Context {PCLHeader PointT float : Type}.
Context (cloud : PointCloud.t PCLHeader PointT)
        (f g : @FunctorT PCLHeader PointT)
        (tree : Search.t float) (tolerance : float)
        (min_pts max_pts : nat).

Lemma neighbor_loop_ext cur nn rest j processed queue :
  (∀ cur nn j, f cloud cur nn j = g cloud cur nn j) →
  neighbor_loop cloud f cur nn rest j processed queue
  = neighbor_loop cloud g cur nn rest j processed queue.
Proof.
  intros Hfg. revert j processed queue.
  induction rest as [|k rest IH]; intros j processed queue; simpl; [done|].
  rewrite Hfg. destruct (processed !! k) as [[]|]; [auto| |done].
  destruct (g cloud cur nn j) as [[]|]; auto.
Qed.

Lemma queue_loop_ext start cur fuel sq_idx processed queue :
  (∀ cur nn j, f cloud cur nn j = g cloud cur nn j) →
  queue_loop cloud f tree tolerance start cur fuel sq_idx processed queue
  = queue_loop cloud g tree tolerance start cur fuel sq_idx processed queue.
Proof.
  intros Hfg. revert sq_idx processed queue.
  induction fuel as [|fuel IH]; intros sq_idx processed queue; simpl; [done|].
  destruct (queue !! sq_idx) as [member|]; [|done].
  destruct (Search.radiusSearch tree member tolerance) as [found nn].
  destruct (found =? 0); [auto|].
  rewrite neighbor_loop_ext by done.
  destruct (neighbor_loop _ _ _ _ _ _ _ _) as [[p1 q1]| |]; simpl; auto.
Qed.

Lemma cloud_loop_ext start it fuel processed clusters :
  (∀ cur nn j, f cloud cur nn j = g cloud cur nn j) →
  cloud_loop cloud f tree tolerance min_pts max_pts start it fuel processed clusters
  = cloud_loop cloud g tree tolerance min_pts max_pts start it fuel processed clusters.
Proof.
  intros Hfg. revert fuel processed clusters.
  induction it as [|cur it IH]; intros fuel processed clusters; simpl; [done|].
  destruct (at_ processed cur) as [[]| |]; simpl; [auto| |done..].
  rewrite queue_loop_ext by done.
  destruct (queue_loop _ _ _ _ _ _ _ _ _ _) as [[[f1 p1] q1]| |]; simpl;
    [|done..].
  destruct (satisfactory _ _ _); auto.
Qed.

Lemma extractEuclideanClusters_it_ext fuel it clusters :
  (∀ cur nn j, f cloud cur nn j = g cloud cur nn j) →
  extractEuclideanClusters_it fuel it cloud f tree tolerance clusters
    min_pts max_pts
  = extractEuclideanClusters_it fuel it cloud g tree tolerance clusters
      min_pts max_pts.
Proof.
  intros Hfg. unfold extractEuclideanClusters_it.
  case_decide; [done|]. by rewrite cloud_loop_ext.
Qed.

Lemma neighbor_loop_rejecting cur nn rest j processed queue :
  (∀ cur nn j, f cloud cur nn j ≠ Some true) →
  neighbor_loop cloud f cur nn rest j processed queue = Undefined
  ∨ neighbor_loop cloud f cur nn rest j processed queue = Done (processed, queue).
Proof.
  intros Hf. revert j.
  induction rest as [|k rest IH]; intros j; simpl; [by right|].
  destruct (processed !! k) as [[]|]; [auto| |by left].
  specialize (Hf cur nn j). destruct (f cloud cur nn j) as [[]|]; [done|auto|by left].
Qed.

Lemma queue_loop_rejecting start cur fuel sq_idx processed queue r :
  (∀ cur nn j, f cloud cur nn j ≠ Some true) →
  queue_loop cloud f tree tolerance start cur fuel sq_idx processed queue
    = Done r →
  r.1.2 = processed ∧ r.2 = queue.
Proof.
  intros Hf. revert sq_idx.
  induction fuel as [|fuel IH]; intros sq_idx; simpl.
  - destruct (queue !! sq_idx); [done|]. by intros [= <-].
  - destruct (queue !! sq_idx) as [member|]; [|by intros [= <-]].
    destruct (Search.radiusSearch tree member tolerance) as [found nn].
    destruct (found =? 0); [apply IH|].
    destruct (neighbor_loop_rejecting cur nn (drop start nn) start processed
                queue Hf) as [-> | ->]; simpl; [done|apply IH].
Qed.

Lemma cloud_loop_rejecting start it fuel processed clusters r :
  (∀ cur nn j, f cloud cur nn j ≠ Some true) →
  cloud_loop cloud f tree tolerance min_pts max_pts start it
    fuel processed clusters = Done r →
  ∃ added,
    r.2 = clusters ++ added
    ∧ ∀ c, c ∈ added →
        length (PointIndices.indices c) = 1 ∧ min_pts ≤ 1 ≤ max_pts.
Proof.
  intros Hf. revert fuel processed clusters.
  induction it as [|cur it IH]; intros fuel processed clusters; simpl.
  - intros [= <-]. exists []. rewrite app_nil_r. split; [done|].
    intros c []%elem_of_nil.
  - destruct (at_ processed cur) as [[]| |]; simpl; [apply IH| |done..].
    destruct (queue_loop _ _ _ _ _ _ _ _ _ _) as [[[f1 p1] q1]| |] eqn:Hq;
      simpl; [|done..].
    apply queue_loop_rejecting in Hq as [_ Hq1]; [|done]. simpl in Hq1.
    subst q1. destruct (satisfactory _ _ _) eqn:Hsat; [|apply IH].
    intros (added & -> & Hadded)%IH.
    exists (PointIndices.mk (PointCloud.header cloud) [cur] :: added).
    rewrite <- app_assoc. split; [done|].
    intros c [->|Hc]%elem_of_cons; [|auto]. simpl. split; [done|].
    unfold satisfactory in Hsat. change (length [cur]) with 1 in Hsat.
    apply andb_true_iff in Hsat as [H1%Nat.leb_le H2%Nat.leb_le]. lia.
Qed.

End Functors.

(** ** Finalisation of a cluster and the partition property *)



(** C2: in what a call adds to [clusters], no point identifier occurs
    twice, neither in two clusters nor twice in one; and the members of a
    queue that was grown during the call and found unsatisfactory are in
    none of the added clusters. *)
Theorem extractEuclideanClusters_partition {PCLHeader PointT float}
    (cloud : PointCloud.t PCLHeader PointT) (f : FunctorT)
    (tree : Search.t float) (tolerance : float) (it : list index_t)
    (clusters : list (PointIndices.t PCLHeader)) (min_pts max_pts fuel : nat)
    (log : list Diagnostic) (clusters' : list (PointIndices.t PCLHeader)) :
  extractEuclideanClusters_it fuel it cloud f tree tolerance clusters
    min_pts max_pts = Done (log, clusters') →
  ∃ added,
    clusters' = clusters ++ added
    ∧ NoDup (concat (PointIndices.indices <$> added))
    ∧ ∀ seed_queue,
        exhausted_queue cloud f tree tolerance min_pts max_pts
          (nn_start_idx tree) it fuel
          (replicate (length (PointCloud.points cloud)) false) clusters
          seed_queue →
        satisfactory min_pts max_pts seed_queue = false →
        ∀ p c, p ∈ seed_queue → c ∈ added → p ∉ PointIndices.indices c.
Proof.
  unfold extractEuclideanClusters_it. case_decide as Hsize.
  { intros [= <- <-]. exists []. rewrite app_nil_r.
    split; [done|]. split; [constructor|].
    intros q _ _ p c _ []%elem_of_nil. }
  destruct (cloud_loop _ _ _ _ _ _ _ _ _ _ _) as [[[f' p'] c']| |] eqn:Hrun;
    simpl; [|done..].
  intros [= <- <-].
  pose proof Hrun as (added & -> & Hnd & _)%cloud_loop_added.
  exists added. split; [done|]. split; [done|].
  intros q (it1 & cur & it2 & f1 & p1 & c1 & f2 & p2 & -> & H1 & Hcur & Hq) Hsat
    p c Hp Hc Hin.
  rewrite cloud_loop_app, H1 in Hrun. simpl in Hrun.
  unfold at_ in Hrun. rewrite Hcur in Hrun. simpl in Hrun.
  rewrite Hq in Hrun. simpl in Hrun. rewrite Hsat in Hrun.
  apply cloud_loop_added in H1 as (a1 & -> & _ & Ha1 & _).
  apply cloud_loop_added in Hrun as (a2 & Heq & _ & Ha2 & _).
  rewrite <- app_assoc in Heq. apply app_inv_head in Heq as ->.
  apply seed_marks in Hq as (new & -> & Hm & _); [|done].
  apply elem_of_app in Hc as [Hc|Hc].
  - destruct (Ha1 c p Hc Hin) as [_ Htrue].
    pose proof (marks_fresh _ _ _ Hm p Hp). congruence.
  - destruct (Ha2 c p Hc Hin) as [Hfalse _].
    pose proof (marks_marked _ _ _ _ Hm Hp). congruence.
Qed.

Lemma extractEuclideanClusters_partition_witness :
  ∃ added,
    [PointIndices.mk 7 [0; 1]] = [] ++ added
    ∧ NoDup (concat (PointIndices.indices <$> added))
    ∧ ∀ c, c ∈ added → 2 ∉ PointIndices.indices c.
Proof.
  destruct (extractEuclideanClusters_partition cloud3 accept_all
              tree_pair_and_single () [0; 1; 2] [] 2 100 3 []
              [PointIndices.mk 7 [0; 1]] eq_refl)
    as (added & Heq & Hnd & Hdisc).
  exists added. split; [exact Heq|]. split; [exact Hnd|].
  intros c Hc. apply (Hdisc [2]); [|reflexivity|left|exact Hc].
  exists [0; 1], 2, [], 1, [true; true; false], [PointIndices.mk 7 [0; 1]],
    0, [true; true; true].
  repeat split; reflexivity.
Defined.

(** ** Failures *)

(** C3: a tree built over a cloud of another size than the supplied cloud,
    or over an index list of another size than the supplied one, makes the
    call print the corresponding error and return [clusters] as it received
    them; this for every amount of fuel, zero included, every iterator and
    every functor: no point is looked at and no queue iteration is run. *)
Theorem extractEuclideanClusters_size_mismatch {PCLHeader PointT float}
    (cloud : PointCloud.t PCLHeader PointT) (tree : Search.t float) :
  (Search.getInputCloud_size tree ≠ length (PointCloud.points cloud) →
   ∀ fuel it f tolerance clusters min_pts max_pts,
     extractEuclideanClusters_it fuel it cloud f tree tolerance clusters
       min_pts max_pts
     = Done ([TreeCloudSizeMismatch (Search.getInputCloud_size tree)
                (length (PointCloud.points cloud))], clusters)
     ∧ extractEuclideanClusters fuel cloud f tree tolerance clusters
         min_pts max_pts
       = Done ([TreeCloudSizeMismatch (Search.getInputCloud_size tree)
                  (length (PointCloud.points cloud))], clusters))
  ∧ (∀ (indices : Indices) tree_indices_size,
       Search.getIndices_size tree = Some tree_indices_size →
       tree_indices_size ≠ length indices →
       ∀ iterator fuel f tolerance clusters min_pts max_pts,
         extractEuclideanClusters_indices iterator fuel cloud indices f tree
           tolerance clusters min_pts max_pts
         = Done ([TreeIndicesSizeMismatch tree_indices_size (length indices)],
                 clusters)).
Proof.
  split.
  - intros Hsize fuel it f tolerance clusters min_pts max_pts.
    unfold extractEuclideanClusters, extractEuclideanClusters_it.
    by rewrite !decide_True.
  - intros indices n Hn Hsize iterator fuel f tolerance clusters min_pts max_pts.
    unfold extractEuclideanClusters_indices. rewrite Hn.
    by rewrite decide_True.
Qed.

Lemma extractEuclideanClusters_size_mismatch_witness :
  extractEuclideanClusters 0 cloud2 accept_all tree_three () [] 1 100
  = Done ([TreeCloudSizeMismatch 3 2], [])
  ∧ extractEuclideanClusters_indices (λ _ indices, indices) 0 cloud3 [0]
      accept_all tree_three () [] 1 100
    = Done ([TreeIndicesSizeMismatch 3 1], []).
Proof.
  split.
  - destruct (extractEuclideanClusters_size_mismatch cloud2 tree_three)
      as [H _].
    apply (H ltac:(simpl; lia) 0 [] accept_all () [] 1 100).
  - destruct (extractEuclideanClusters_size_mismatch cloud3 tree_three)
      as [_ H].
    apply (H [0] 3 eq_refl ltac:(simpl; lia)).
Defined.

(** ** Sorted and unsorted results *)

(** C6, as amended: if the first neighbour of every successful radius query
    is the query point, the index reporting sorted results and the same
    index reporting unsorted results give the same outcome: the same
    clusters, with the same members, in the same order. *)
Theorem extractEuclideanClusters_sorted_results {PCLHeader PointT float}
    (cloud : PointCloud.t PCLHeader PointT) (f : FunctorT)
    (tree : Search.t float) (tolerance : float) (it : list index_t)
    (clusters : list (PointIndices.t PCLHeader)) (min_pts max_pts fuel : nat) :
  self_first tree tolerance →
  extractEuclideanClusters_it fuel it cloud f (reporting true tree) tolerance
    clusters min_pts max_pts
  = extractEuclideanClusters_it fuel it cloud f (reporting false tree) tolerance
      clusters min_pts max_pts.
Proof.
  intros Hself. unfold extractEuclideanClusters_it. simpl.
  case_decide; [done|]. unfold nn_start_idx. simpl.
  change (cloud_loop cloud f (reporting true tree))
    with (cloud_loop cloud f tree).
  change (cloud_loop cloud f (reporting false tree))
    with (cloud_loop cloud f tree).
  by rewrite cloud_loop_start.
Qed.

Lemma extractEuclideanClusters_sorted_results_witness :
  extractEuclideanClusters_it 2 [0; 1] cloud2 accept_all
    (reporting true (tree_pair false)) () [] 1 100
  = extractEuclideanClusters_it 2 [0; 1] cloud2 accept_all
      (reporting false (tree_pair false)) () [] 1 100.
Proof.
  apply (extractEuclideanClusters_sorted_results cloud2 accept_all
           (tree_pair false) () [0; 1] [] 1 100 2).
  intros member k Hfound. simpl in *.
  destruct member as [|[|member]]; simpl in *; [| |done];
    intros [= <-]; reflexivity.
Defined.

(** C6, as stated, fails: two points at the same position are put in one
    cluster when the index reports unsorted results and in two when it
    reports sorted results, the first neighbour skipped being the other
    point. *)
Lemma extractEuclideanClusters_sorted_results_counterexample :
  extractEuclideanClusters 2 cloud2 accept_all (reporting true tree_dup) ()
    [] 1 100
  = Done ([], [PointIndices.mk 7 [0]; PointIndices.mk 7 [1]])
  ∧ extractEuclideanClusters 2 cloud2 accept_all (reporting false tree_dup) ()
      [] 1 100
    = Done ([], [PointIndices.mk 7 [0; 1]])
  ∧ ¬ same_partition [PointIndices.mk 7 [0]; PointIndices.mk 7 [1]]
                     [PointIndices.mk 7 [0; 1]].
Proof.
  split; [reflexivity|]. split; [reflexivity|].
  intros Hsame. destruct (Hsame 0 1) as [_ H].
  destruct H as (c & Hc & H0 & H1).
  - exists (PointIndices.mk 7 [0; 1]). simpl.
    split; [by left|]. split; [by left|by right; left].
  - apply elem_of_cons in Hc as [->|Hc]; simpl in *.
    + apply list_elem_of_singleton in H1. discriminate.
    + apply list_elem_of_singleton in Hc as ->. simpl in *.
      apply list_elem_of_singleton in H0. discriminate.
Qed.

(** ** Termination *)

(** C10: the extraction terminates, whatever the cloud, the index and the
    functor.  One unit of fuel is spent per iteration of the queue loop and
    nowhere else; with as much fuel as the cloud has points the run is never
    cut short, it returns a result as soon as no vector is read out of
    range, and the iterations a complete run has spent are the queue
    entries it made, none of them twice for the same point, at most one per
    point of the cloud. *)
Theorem extractEuclideanClusters_terminates {PCLHeader PointT float}
    (cloud : PointCloud.t PCLHeader PointT) (f : FunctorT)
    (tree : Search.t float) (tolerance : float) (it : list index_t)
    (clusters : list (PointIndices.t PCLHeader)) (min_pts max_pts fuel : nat) :
  length (PointCloud.points cloud) ≤ fuel →
  extractEuclideanClusters_it fuel it cloud f tree tolerance clusters
    min_pts max_pts ≠ OutOfFuel
  ∧ ((∀ cur nn j, is_Some (f cloud cur nn j)) →
     search_in_range tree tolerance (nn_start_idx tree)
       (length (PointCloud.points cloud)) →
     (∀ cur, cur ∈ it → cur < length (PointCloud.points cloud)) →
     ∃ r, extractEuclideanClusters_it fuel it cloud f tree tolerance clusters
            min_pts max_pts = Done r)
  ∧ (∀ fuel' processed' clusters',
       cloud_loop cloud f tree tolerance min_pts max_pts (nn_start_idx tree)
         it fuel (replicate (length (PointCloud.points cloud)) false) clusters
       = Done (fuel', processed', clusters') →
       ∃ queues : list Indices,
         fuel = fuel' + length (concat queues)
         ∧ NoDup (concat queues)
         ∧ length (concat queues) ≤ length (PointCloud.points cloud)).
Proof.
  intros Hfuel. unfold extractEuclideanClusters_it.
  set (n := length (PointCloud.points cloud)) in *.
  set (start := nn_start_idx tree). split; [|split].
  - case_decide; [done|].
    destruct (cloud_loop _ _ _ _ _ _ _ _ _ _ _) as [[[f1 p1] c1]| |] eqn:Hc;
      simpl; [done..|].
    apply cloud_loop_fuel in Hc; [done|]. by rewrite unprocessed_replicate.
  - intros Hf Htree Hit. case_decide; [eauto|].
    destruct (cloud_loop_defined cloud f tree tolerance min_pts max_pts n start
                it fuel (replicate n false) clusters) as [[[f1 p1] c1] ->];
      [done|done|done|apply length_replicate|by rewrite unprocessed_replicate|].
    simpl. eauto.
  - intros fuel' processed' clusters'
      (queues & _ & [Hnd _ _ _ Hc] & Hspent)%cloud_loop_marks.
    exists queues. rewrite unprocessed_replicate in Hc.
    split; [done|]. split; [done|lia].
Qed.

Lemma extractEuclideanClusters_terminates_witness :
  extractEuclideanClusters_it 2 [0; 1] cloud2 accept_all (tree_pair true) ()
    [] 1 100 ≠ OutOfFuel
  ∧ ∃ r, extractEuclideanClusters_it 2 [0; 1] cloud2 accept_all
           (tree_pair true) () [] 1 100 = Done r.
Proof.
  destruct (extractEuclideanClusters_terminates cloud2 accept_all
              (tree_pair true) () [0; 1] [] 1 100 2) as (H1 & H2 & _).
  - simpl. lia.
  - split; [exact H1|]. apply H2.
    + intros cur nn j. exists true. reflexivity.
    + intros member Hfound k. simpl in *.
      destruct member as [|[|member]]; simpl in *; [| |done];
        intros Hk%list_elem_of_singleton; rewrite Hk; lia.
    + simpl. intros cur [->|[->|[]%elem_of_nil]%elem_of_cons]%elem_of_cons; lia.
Defined.

(** ** The normal-deviation variant *)

Section NormalProperties.
Context {PCLHeader PointT : Type}.
Local Open Scope R_scope.

Lemma clamp_angle_range (max_angle : R) : 0 <= clamp_angle max_angle <= PI.
Proof.
  unfold clamp_angle. split; [|apply Rmin_r].
  apply Rmin_glb; [apply Rabs_pos|]. left. apply PI_RGT_0.
Qed.

Lemma cos_clamp_angle_pos (max_angle : R) :
  Rabs max_angle < PI / 2 → 0 < cos (clamp_angle max_angle).
Proof.
  intros Ha. pose proof PI_RGT_0. pose proof (Rabs_pos max_angle).
  unfold clamp_angle. rewrite Rmin_left by lra.
  apply cos_gt_0; lra.
Qed.

Lemma cos_clamp_angle_nonpos (max_angle : R) :
  PI / 2 <= clamp_angle max_angle → cos (clamp_angle max_angle) <= 0.
Proof.
  intros Ha. pose proof PI_RGT_0. pose proof (clamp_angle_range max_angle).
  apply cos_le_0; lra.
Qed.

Lemma normal_deviation_filter_true
    (normals : PointCloud.t PCLHeader Normal) (cos_max_angle : R)
    (cloud : PointCloud.t PCLHeader PointT) (i : index_t) (nn_indices : Indices)
    (j : index_t) :
  normal_deviation_filter normals cos_max_angle cloud i nn_indices j = Some true
  ↔ ∃ n_i nn_j n_j,
      PointCloud.points normals !! i = Some n_i
      ∧ nn_indices !! j = Some nn_j
      ∧ PointCloud.points normals !! nn_j = Some n_j
      ∧ Rabs (dot n_i n_j) < cos_max_angle.
Proof.
  unfold normal_deviation_filter. split.
  - intros H.
    destruct (PointCloud.points normals !! i) as [n_i|]; simpl in H; [|done].
    destruct (nn_indices !! j) as [nn_j|]; simpl in H; [|done].
    destruct (PointCloud.points normals !! nn_j) as [n_j|] eqn:Hj;
      simpl in H; [|done].
    injection H as H%bool_decide_eq_true. exists n_i, nn_j, n_j. auto.
  - intros (n_i & nn_j & n_j & -> & -> & Hj & Hlt). simpl. rewrite Hj. simpl.
    f_equal. by apply bool_decide_eq_true.
Qed.

Lemma normal_deviation_filter_indices_true
    (normals : PointCloud.t PCLHeader Normal) (indices : Indices)
    (cos_max_angle : R)
    (cloud : PointCloud.t PCLHeader PointT) (i : index_t) (nn_indices : Indices)
    (j : index_t) :
  normal_deviation_filter_indices normals indices cos_max_angle cloud i
    nn_indices j = Some true
  ↔ ∃ i' n_i nn_j nn_j' n_j,
      indices !! i = Some i'
      ∧ PointCloud.points normals !! i' = Some n_i
      ∧ nn_indices !! j = Some nn_j
      ∧ indices !! nn_j = Some nn_j'
      ∧ PointCloud.points normals !! nn_j' = Some n_j
      ∧ Rabs (dot n_i n_j) < cos_max_angle.
Proof.
  unfold normal_deviation_filter_indices. split.
  - intros H.
    destruct (indices !! i) as [i'|]; simpl in H; [|done].
    destruct (PointCloud.points normals !! i') as [n_i|] eqn:Hi;
      simpl in H; [|done].
    destruct (nn_indices !! j) as [nn_j|]; simpl in H; [|done].
    destruct (indices !! nn_j) as [nn_j'|] eqn:Hj'; simpl in H; [|done].
    destruct (PointCloud.points normals !! nn_j') as [n_j|] eqn:Hj;
      simpl in H; [|done].
    injection H as H%bool_decide_eq_true.
    exists i', n_i, nn_j, nn_j', n_j. auto 10.
  - intros (i' & n_i & nn_j & nn_j' & n_j & -> & Hi & -> & Hj' & Hj & Hlt).
    simpl. rewrite Hi. simpl. rewrite Hj'. simpl. rewrite Hj. simpl.
    f_equal. by apply bool_decide_eq_true.
Qed.

End NormalProperties.



(** C8: both overloads with normals compare the size of the cloud with the
    size of the normals before anything else and, when they differ, print
    the error and return [clusters] untouched; past that check, the overload
    over a subset returns at once, printing nothing and leaving [clusters]
    untouched, when the subset is empty.  Neither return depends on the fuel,
    the tree or the iterator: no growth has started. *)
Theorem extractEuclideanClusters_normals_preconditions {PCLHeader PointT float}
    (cloud : PointCloud.t PCLHeader PointT)
    (normals : PointCloud.t PCLHeader Normal) :
  (length (PointCloud.points cloud) ≠ length (PointCloud.points normals) →
   ∀ iterator fuel indices tolerance (tree : Search.t float) clusters max_angle
     min_pts max_pts,
     extractEuclideanClusters_normals fuel cloud normals tolerance tree
       clusters max_angle min_pts max_pts
     = Done ([NormalsSizeMismatch (length (PointCloud.points cloud))
                (length (PointCloud.points normals))], clusters)
     ∧ extractEuclideanClusters_normals_indices iterator fuel cloud normals
         indices tree tolerance clusters max_angle min_pts max_pts
       = Done ([NormalsSizeMismatch (length (PointCloud.points cloud))
                  (length (PointCloud.points normals))], clusters))
  ∧ (length (PointCloud.points cloud) = length (PointCloud.points normals) →
     ∀ iterator fuel tolerance (tree : Search.t float) clusters max_angle
       min_pts max_pts,
       extractEuclideanClusters_normals_indices iterator fuel cloud normals
         [] tree tolerance clusters max_angle min_pts max_pts
       = Done ([], clusters)).
Proof.
  split.
  - intros Hsize iterator fuel indices tolerance tree clusters max_angle
      min_pts max_pts.
    unfold extractEuclideanClusters_normals,
      extractEuclideanClusters_normals_indices.
    by rewrite !decide_True.
  - intros Hsize iterator fuel tolerance tree clusters max_angle
      min_pts max_pts.
    unfold extractEuclideanClusters_normals_indices.
    by rewrite decide_False by auto.
Qed.

Lemma extractEuclideanClusters_normals_preconditions_witness :
  extractEuclideanClusters_normals 0 cloud3 normals_perpendicular ()
    (tree_pair true) [] 0 1 100
  = Done ([NormalsSizeMismatch 3 2], [])
  ∧ extractEuclideanClusters_normals_indices (λ _ indices, indices) 0 cloud2
      normals_perpendicular [] (tree_pair true) () [] 0 1 100
    = Done ([], []).
Proof.
  split.
  - destruct (extractEuclideanClusters_normals_preconditions (float := unit)
                cloud3 normals_perpendicular) as [H _].
    apply (H ltac:(simpl; lia) (λ _ indices, indices) 0 [] ()
             (tree_pair true) [] 0%R 1 100).
  - destruct (extractEuclideanClusters_normals_preconditions (float := unit)
                cloud2 normals_perpendicular) as [_ H].
    apply (H eq_refl).
Defined.

(** C9: once the clamped angle is at least pi/2 its cosine is not positive,
    so the functor accepts no candidate, and every cluster a call with
    normals adds is made of its seed alone; such clusters are added only
    when [min_pts_per_cluster <= 1 <= max_pts_per_cluster]. *)
Theorem normal_deviation_filter_obtuse {PCLHeader PointT float}
    (cloud : PointCloud.t PCLHeader PointT)
    (normals : PointCloud.t PCLHeader Normal) (max_angle : R) :
  (PI / 2 <= clamp_angle max_angle)%R →
  (cos (clamp_angle max_angle) <= 0)%R
  ∧ (∀ i nn_indices j,
       normal_deviation_filter normals (cos (clamp_angle max_angle)) cloud
         i nn_indices j ≠ Some true)
  ∧ (∀ indices i nn_indices j,
       normal_deviation_filter_indices normals indices
         (cos (clamp_angle max_angle)) cloud i nn_indices j ≠ Some true)
  ∧ (∀ fuel tolerance (tree : Search.t float) clusters min_pts max_pts
       log clusters',
       extractEuclideanClusters_normals fuel cloud normals tolerance tree
         clusters max_angle min_pts max_pts = Done (log, clusters') →
       ∃ added,
         clusters' = clusters ++ added
         ∧ ∀ c, c ∈ added →
             length (PointIndices.indices c) = 1 ∧ min_pts ≤ 1 ≤ max_pts)
  ∧ (∀ iterator fuel indices (tree : Search.t float) tolerance clusters
       min_pts max_pts log clusters',
       extractEuclideanClusters_normals_indices iterator fuel cloud normals
         indices tree tolerance clusters max_angle min_pts max_pts
       = Done (log, clusters') →
       ∃ added,
         clusters' = clusters ++ added
         ∧ ∀ c, c ∈ added →
             length (PointIndices.indices c) = 1 ∧ min_pts ≤ 1 ≤ max_pts).
Proof.
  intros Hobtuse. pose proof (cos_clamp_angle_nonpos _ Hobtuse) as Hcos.
  assert (Hrej : ∀ i nn_indices j,
    normal_deviation_filter normals (cos (clamp_angle max_angle)) cloud
      i nn_indices j ≠ Some true).
  { intros i nn_indices j
      (n_i & nn_j & n_j & _ & _ & _ & Hlt)%normal_deviation_filter_true.
    pose proof (Rabs_pos (dot n_i n_j)). lra. }
  assert (Hrej' : ∀ indices i nn_indices j,
    normal_deviation_filter_indices normals indices
      (cos (clamp_angle max_angle)) cloud i nn_indices j ≠ Some true).
  { intros indices i nn_indices j
      (i' & n_i & nn_j & nn_j' & n_j & _ & _ & _ & _ & _ & Hlt)
        %normal_deviation_filter_indices_true.
    pose proof (Rabs_pos (dot n_i n_j)). lra. }
  assert (Hnone : ∀ (clusters : list (PointIndices.t PCLHeader)) min_pts max_pts,
    ∃ added, clusters = clusters ++ added
      ∧ ∀ c, c ∈ added →
          length (PointIndices.indices c) = 1 ∧ min_pts ≤ 1 ≤ max_pts).
  { intros clusters min_pts max_pts. exists []. rewrite app_nil_r.
    split; [done|]. intros c []%elem_of_nil. }
  assert (Hit : ∀ f fuel it (tree : Search.t float) tolerance clusters
                  min_pts max_pts log clusters',
    (∀ cur nn j, f cloud cur nn j ≠ Some true) →
    extractEuclideanClusters_it fuel it cloud f tree tolerance clusters
      min_pts max_pts = Done (log, clusters') →
    ∃ added, clusters' = clusters ++ added
      ∧ ∀ c, c ∈ added →
          length (PointIndices.indices c) = 1 ∧ min_pts ≤ 1 ≤ max_pts).
  { intros f fuel it tree tolerance clusters min_pts max_pts log clusters' Hf.
    unfold extractEuclideanClusters_it. case_decide.
    { intros [= <- <-]. apply Hnone. }
    destruct (cloud_loop _ _ _ _ _ _ _ _ _ _ _) as [[[f1 p1] c1]| |] eqn:Hrun;
      simpl; [|done..].
    intros [= <- <-]. by apply cloud_loop_rejecting in Hrun. }
  split; [done|]. split; [done|]. split; [done|]. split.
  - intros fuel tolerance tree clusters min_pts max_pts log clusters'.
    unfold extractEuclideanClusters_normals. case_decide.
    { intros [= <- <-]. apply Hnone. }
    by apply Hit.
  - intros iterator fuel indices tree tolerance clusters min_pts max_pts
      log clusters'.
    unfold extractEuclideanClusters_normals_indices. case_decide.
    { intros [= <- <-]. apply Hnone. }
    destruct indices as [|i0 indices]; [intros [= <- <-]; apply Hnone|].
    unfold extractEuclideanClusters_indices.
    destruct (Search.getIndices_size tree); [|done]. case_decide.
    { intros [= <- <-]. apply Hnone. }
    by apply Hit.
Qed.

Lemma normal_deviation_filter_obtuse_witness :
  (cos (clamp_angle PI) <= 0)%R
  ∧ normal_deviation_filter normals_identical (cos (clamp_angle PI)) cloud2
      0 [0; 1] 1 ≠ Some true.
Proof.
  destruct (normal_deviation_filter_obtuse (float := unit) cloud2
              normals_identical PI) as (H1 & H2 & _).
  - unfold clamp_angle. pose proof PI_RGT_0.
    rewrite Rabs_right by lra. rewrite Rmin_left by lra. lra.
  - split; [exact H1|apply H2].
Defined.

(** ** What the normal-deviation test does to a pair of neighbours *)

(** C1, on the code: the test [std::abs (dot_p) < cos_max_angle] accepts
    where the normals differ and rejects where they agree.  Two neighbouring
    points with perpendicular normals are put in one cluster for every
    [max_angle] of absolute value below pi/2; with identical normals they
    are put in two clusters whatever [max_angle] is. *)
Theorem normal_deviation_gating_on_pair :
  (∀ max_angle : R,
     (Rabs max_angle < PI / 2)%R →
     extractEuclideanClusters_normals 2 cloud2 normals_perpendicular ()
       (tree_pair true) [] max_angle 1 100
     = Done ([], [PointIndices.mk 7 [0; 1]]))
  ∧ (∀ max_angle : R,
       extractEuclideanClusters_normals 2 cloud2 normals_identical ()
         (tree_pair true) [] max_angle 1 100
       = Done ([], [PointIndices.mk 7 [0]; PointIndices.mk 7 [1]])).
Proof.
  split.
  - intros max_angle Hacute.
    pose proof (cos_clamp_angle_pos _ Hacute) as Hpos.
    pose proof (COS_bound (clamp_angle max_angle)) as [_ Hle].
    pose (g := (λ _ i nn j,
                  match i, nn !! j with
                  | (0 | 1), Some ((0 | 1) as k) => Some (negb (i =? k))
                  | _, _ => None
                  end) : @FunctorT nat unit).
    unfold extractEuclideanClusters_normals, extractEuclideanClusters.
    rewrite decide_False by (intros H; by apply H).
    rewrite (extractEuclideanClusters_it_ext cloud2 _ g); [reflexivity|].
    intros cur nn j. unfold normal_deviation_filter, g. simpl.
    destruct cur as [|[|cur]]; simpl; [| |done];
      (destruct (nn !! j) as [[|[|k]]|]; simpl; [| | |done]; [| |done]);
      f_equal; unfold dot; simpl;
      first [ apply bool_decide_eq_true | apply bool_decide_eq_false ].
    + replace (1 * 1 + 0 * 0 + 0 * 0)%R with 1%R by ring.
      rewrite Rabs_R1. lra.
    + replace (1 * 0 + 0 * 1 + 0 * 0)%R with 0%R by ring.
      rewrite Rabs_R0. lra.
    + replace (0 * 1 + 1 * 0 + 0 * 0)%R with 0%R by ring.
      rewrite Rabs_R0. lra.
    + replace (0 * 0 + 1 * 1 + 0 * 0)%R with 1%R by ring.
      rewrite Rabs_R1. lra.
  - intros max_angle.
    pose proof (COS_bound (clamp_angle max_angle)) as [_ Hle].
    pose (g := (λ _ i nn j,
                  match i, nn !! j with
                  | (0 | 1), Some (0 | 1) => Some false
                  | _, _ => None
                  end) : @FunctorT nat unit).
    unfold extractEuclideanClusters_normals, extractEuclideanClusters.
    rewrite decide_False by (intros H; by apply H).
    rewrite (extractEuclideanClusters_it_ext cloud2 _ g); [reflexivity|].
    intros cur nn j. unfold normal_deviation_filter, g. simpl.
    destruct cur as [|[|cur]]; simpl; [| |done];
      (destruct (nn !! j) as [[|[|k]]|]; simpl; [| | |done]; [| |done]);
      f_equal; unfold dot; simpl; apply bool_decide_eq_false;
      replace (1 * 1 + 0 * 0 + 0 * 0)%R with 1%R by ring;
      rewrite Rabs_R1; lra.
Qed.

Lemma normal_deviation_gating_on_pair_witness :
  extractEuclideanClusters_normals 2 cloud2 normals_perpendicular ()
    (tree_pair true) [] 0 1 100
  = Done ([], [PointIndices.mk 7 [0; 1]])
  ∧ extractEuclideanClusters_normals 2 cloud2 normals_identical ()
      (tree_pair true) [] 1 1 100
    = Done ([], [PointIndices.mk 7 [0]; PointIndices.mk 7 [1]]).
Proof.
  destruct normal_deviation_gating_on_pair as [H1 H2].
  split; [apply H1|apply H2].
  rewrite Rabs_R0. apply Rdiv_lt_0_compat; [apply PI_RGT_0|apply Rlt_0_2].
Defined.

(** ** Further properties of the region-growing loops *)

Section Growth.
Context {PCLHeader PointT float : Type}.
Context (cloud : PointCloud.t PCLHeader PointT)
        (f : @FunctorT PCLHeader PointT)
        (tree : Search.t float) (tolerance : float)
        (min_pts max_pts : nat).

Lemma neighbor_loop_sound cur nn rest j processed queue processed' queue' :
  neighbor_loop cloud f cur nn rest j processed queue = Done (processed', queue') →
  (∀ t, rest !! t = nn !! (j + t)) →
  ∀ p, p ∈ queue' →
    p ∈ queue ∨ ∃ j', j ≤ j' ∧ nn !! j' = Some p ∧ f cloud cur nn j' = Some true.
Proof.
  revert j processed queue.
  induction rest as [|k rest IH]; intros j processed queue; simpl.
  - intros [= <- <-] _ p Hp. by left.
  - intros Hrun Hrest.
    assert (Hk : nn !! j = Some k).
    { pose proof (Hrest 0) as H0. rewrite Nat.add_0_r in H0. by rewrite <- H0. }
    assert (Hrest' : ∀ t, rest !! t = nn !! (S j + t)).
    { intros t. replace (S j + t) with (j + S t) by lia. exact (Hrest (S t)). }
    destruct (processed !! k) as [[]|]; [| |done].
    + intros p Hp. destruct (IH _ _ _ Hrun Hrest' p Hp) as [|(j' & ? & ? & ?)];
        [by left|]. right. exists j'. split; [lia|done].
    + destruct (f cloud cur nn j) as [[]|] eqn:Hf; [| |done].
      * intros p Hp.
        destruct (IH _ _ _ Hrun Hrest' p Hp)
          as [[?| ->%list_elem_of_singleton]%elem_of_app|(j' & ? & ? & ?)].
        -- by left.
        -- right. exists j. split; [lia|done].
        -- right. exists j'. split; [lia|done].
      * intros p Hp.
        destruct (IH _ _ _ Hrun Hrest' p Hp) as [|(j' & ? & ? & ?)];
          [by left|]. right. exists j'. split; [lia|done].
Qed.

Lemma neighbor_loop_closed cur nn rest j processed queue processed' queue' :
  neighbor_loop cloud f cur nn rest j processed queue = Done (processed', queue') →
  ∀ t k, rest !! t = Some k →
    processed' !! k = Some true ∨ f cloud cur nn (j + t) = Some false.
Proof.
  revert j processed queue.
  induction rest as [|k0 rest IH]; intros j processed queue; simpl; [done|].
  intros Hrun [|t] k Hk; simpl in Hk.
  - injection Hk as ->. rewrite Nat.add_0_r.
    destruct (processed !! k) as [[]|] eqn:Hpk; [| |done].
    + left. apply neighbor_loop_marks in Hrun as (new & _ & Hm & _).
      by eapply marks_mono.
    + destruct (f cloud cur nn j) as [[]|]; [| |done]; [|by right].
      left. apply neighbor_loop_marks in Hrun as (new & _ & Hm & _).
      eapply marks_mono; [done|].
      apply list_lookup_insert_eq. by eapply lookup_lt_Some.
  - replace (j + S t) with (S j + t) by lia.
    destruct (processed !! k0) as [[]|]; [eauto| |done].
    destruct (f cloud cur nn j) as [[]|]; [eauto..|done].
Qed.

Lemma queue_loop_sound start cur fuel sq_idx processed queue fuel' processed' queue' :
  queue_loop cloud f tree tolerance start cur fuel sq_idx processed queue
    = Done (fuel', processed', queue') →
  (∀ p, p ∈ queue → reachable cloud f tree tolerance start cur p) →
  ∀ p, p ∈ queue' → reachable cloud f tree tolerance start cur p.
Proof.
  revert sq_idx processed queue.
  induction fuel as [|fuel IH]; intros sq_idx processed queue; simpl.
  - destruct (queue !! sq_idx); [done|]. by intros [= <- <- <-].
  - destruct (queue !! sq_idx) as [member|] eqn:Hq; [|by intros [= <- <- <-]].
    destruct (Search.radiusSearch tree member tolerance) as [found nn] eqn:Hs.
    destruct (found =? 0) eqn:Hfound; [apply IH|].
    apply Nat.eqb_neq in Hfound.
    destruct (neighbor_loop _ _ _ _ _ _ _ _) as [[p1 q1]| |] eqn:Hn; simpl;
      [|done..].
    intros Hrun Hreach. apply (IH _ _ _ Hrun). intros p Hp.
    destruct (neighbor_loop_sound _ _ _ _ _ _ _ _ Hn (lookup_drop nn start) p Hp)
      as [|(j' & Hj' & Hnn & Hacc)]; [auto|].
    apply (reachable_step _ _ _ _ _ _ member j' p).
    + apply Hreach. by eapply list_elem_of_lookup_2.
    + by rewrite Hs.
    + done.
    + by rewrite Hs.
    + by rewrite Hs.
Qed.

(** Once the queue loop has passed a member, each neighbour reported
    around it is marked or was refused. *)
Lemma queue_loop_closed_from start cur fuel sq_idx processed queue
    fuel' processed' queue' :
  queue_loop cloud f tree tolerance start cur fuel sq_idx processed queue
    = Done (fuel', processed', queue') →
  (∀ i member, i < sq_idx → queue !! i = Some member →
     (Search.radiusSearch tree member tolerance).1 ≠ 0 →
     ∀ j k, start ≤ j →
       (Search.radiusSearch tree member tolerance).2 !! j = Some k →
       processed !! k = Some true
       ∨ f cloud cur (Search.radiusSearch tree member tolerance).2 j = Some false) →
  ∀ member, member ∈ queue' →
    (Search.radiusSearch tree member tolerance).1 ≠ 0 →
    ∀ j k, start ≤ j →
      (Search.radiusSearch tree member tolerance).2 !! j = Some k →
      processed' !! k = Some true
      ∨ f cloud cur (Search.radiusSearch tree member tolerance).2 j = Some false.
Proof.
  revert sq_idx processed queue.
  assert (Hend : ∀ sq_idx (processed : list bool) (queue : Indices),
    queue !! sq_idx = None →
    (∀ i member, i < sq_idx → queue !! i = Some member →
       (Search.radiusSearch tree member tolerance).1 ≠ 0 →
       ∀ j k, start ≤ j →
         (Search.radiusSearch tree member tolerance).2 !! j = Some k →
         processed !! k = Some true
         ∨ f cloud cur (Search.radiusSearch tree member tolerance).2 j
           = Some false) →
    ∀ member, member ∈ queue →
      (Search.radiusSearch tree member tolerance).1 ≠ 0 →
      ∀ j k, start ≤ j →
        (Search.radiusSearch tree member tolerance).2 !! j = Some k →
        processed !! k = Some true
        ∨ f cloud cur (Search.radiusSearch tree member tolerance).2 j
          = Some false).
  { intros sq_idx processed queue Hnone%lookup_ge_None Hinv member
      (i & Hi)%list_elem_of_lookup_1.
    apply (Hinv i); [|done]. apply lookup_lt_Some in Hi. lia. }
  induction fuel as [|fuel IH]; intros sq_idx processed queue; simpl.
  - destruct (queue !! sq_idx) eqn:Hq; [done|].
    intros [= <- <- <-]. by apply Hend.
  - destruct (queue !! sq_idx) as [member|] eqn:Hq;
      [|intros [= <- <- <-]; by apply Hend].
    destruct (Search.radiusSearch tree member tolerance) as [found nn] eqn:Hs.
    destruct (found =? 0) eqn:Hfound.
    + intros Hrun Hinv. apply (IH _ _ _ Hrun).
      intros i m Hi Hm. destruct (decide (i = sq_idx)) as [->|].
      * rewrite Hq in Hm. injection Hm as <-. rewrite Hs. simpl.
        apply Nat.eqb_eq in Hfound. done.
      * apply (Hinv i); [lia|done].
    + destruct (neighbor_loop _ _ _ _ _ _ _ _) as [[p1 q1]| |] eqn:Hn; simpl;
        [|done..].
      intros Hrun Hinv. apply (IH _ _ _ Hrun).
      pose proof Hn as (new & -> & Hm1 & _)%neighbor_loop_marks.
      intros i m Hi Hm Hfm j k Hj Hk.
      assert (Him : queue !! i = Some m).
      { rewrite lookup_app_l in Hm; [done|]. apply lookup_lt_Some in Hq. lia. }
      destruct (decide (i = sq_idx)) as [->|].
      * rewrite Hq in Him. injection Him as <-. rewrite Hs in Hk |- *.
        simpl in *.
        destruct (neighbor_loop_closed _ _ _ _ _ _ _ _ Hn (j - start) k)
          as [?|Hrej].
        -- rewrite lookup_drop. by replace (start + (j - start)) with j by lia.
        -- by left.
        -- right. by replace (start + (j - start)) with j in Hrej by lia.
      * destruct (Hinv i m ltac:(lia) Him Hfm j k Hj Hk) as [?|?]; [|by right].
        left. by eapply marks_mono.
Qed.

(** The queues a complete run of the cloud loop has grown, dropped or not. *)
Lemma cloud_loop_queues start it fuel processed clusters fuel' processed' clusters' :
  cloud_loop cloud f tree tolerance min_pts max_pts start it
    fuel processed clusters = Done (fuel', processed', clusters') →
  ∃ queues : list Indices,
    clusters' = clusters ++
      (PointIndices.mk (PointCloud.header cloud)
         <$> filter (λ q, satisfactory min_pts max_pts q) queues)
    ∧ marks processed processed' (concat queues)
    ∧ omap head queues `sublist_of` it
    ∧ Forall (λ q, ∃ seed, head q = Some seed
                 ∧ ∀ p, p ∈ q → reachable cloud f tree tolerance start seed p)
        queues
    ∧ (∀ cur, cur ∈ it → processed' !! cur = Some true).
Proof.
  revert fuel processed clusters.
  induction it as [|cur it IH]; intros fuel processed clusters; simpl.
  - intros [= <- <- <-]. exists []. simpl. rewrite app_nil_r.
    split; [done|]. split; [apply marks_refl|]. split; [constructor|].
    split; [constructor|]. intros cur []%elem_of_nil.
  - unfold at_. destruct (processed !! cur) as [[]|] eqn:Hcur; simpl; [| |done].
    + intros (queues & -> & Hm & Hsub & Hall & Hit)%IH. exists queues.
      split; [done|]. split; [done|]. split; [by apply sublist_cons|].
      split; [done|]. intros x [->|Hx]%elem_of_cons; [|auto].
      by eapply marks_mono.
    + destruct (queue_loop _ _ _ _ _ _ _ _ _ _) as [[[f1 p1] q1]| |] eqn:Hq;
        simpl; [|done..].
      assert (Hreach : ∀ p, p ∈ q1 → reachable cloud f tree tolerance start cur p).
      { apply (queue_loop_sound _ _ _ _ _ _ _ _ _ Hq).
        intros p ->%list_elem_of_singleton. constructor. }
      apply seed_marks in Hq as (new & -> & Hm1 & _); [|done].
      assert (Hrest : ∀ cl,
        cloud_loop cloud f tree tolerance min_pts max_pts start it f1 p1 cl
          = Done (fuel', processed', clusters') →
        ∃ queues : list Indices,
          clusters' = cl ++
            (PointIndices.mk (PointCloud.header cloud)
               <$> filter (λ q, satisfactory min_pts max_pts q) queues)
          ∧ marks processed processed' (concat ((cur :: new) :: queues))
          ∧ omap head ((cur :: new) :: queues) `sublist_of` cur :: it
          ∧ Forall (λ q, ∃ seed, head q = Some seed
                       ∧ ∀ p, p ∈ q →
                           reachable cloud f tree tolerance start seed p)
              ((cur :: new) :: queues)
          ∧ (∀ x, x ∈ cur :: it → processed' !! x = Some true)).
      { intros cl (queues & -> & Hm & Hsub & Hall & Hit)%IH. exists queues.
        split; [done|].
        split; [by apply (marks_trans _ p1 _ (cur :: new) (concat queues))|].
        split; [simpl; by apply sublist_skip|].
        split; [constructor; [by exists cur|done]|].
        intros x [->|Hx]%elem_of_cons; [|auto].
        eapply marks_mono; [done|]. eapply marks_marked; [done|by left]. }
      destruct (satisfactory _ _ _) eqn:Hsat.
      * intros (queues & -> & H)%Hrest. exists ((cur :: new) :: queues).
        rewrite filter_cons_True by (by rewrite Hsat). rewrite fmap_cons.
        rewrite <- app_assoc. done.
      * intros (queues & -> & H)%Hrest. exists ((cur :: new) :: queues).
        rewrite filter_cons_False by (rewrite Hsat; intros []). done.
Qed.

End Growth.

(** ** A radius search that fails *)

Section SearchFailure.
Context {PCLHeader PointT float : Type}.
Context (cloud : PointCloud.t PCLHeader PointT)
        (f : @FunctorT PCLHeader PointT)
        (tree : Search.t float) (tolerance : float).

(** The members the queue loop passes from position [lo] on have their
    neighbourhoods settled when it ends, whatever happened before [lo]. *)
Lemma queue_loop_closed_above lo start cur fuel sq_idx processed queue
    fuel' processed' queue' :
  queue_loop cloud f tree tolerance start cur fuel sq_idx processed queue
    = Done (fuel', processed', queue') →
  (∀ i member, lo ≤ i < sq_idx → queue !! i = Some member →
     (Search.radiusSearch tree member tolerance).1 ≠ 0 →
     ∀ j k, start ≤ j →
       (Search.radiusSearch tree member tolerance).2 !! j = Some k →
       processed !! k = Some true
       ∨ f cloud cur (Search.radiusSearch tree member tolerance).2 j = Some false) →
  ∀ i member, lo ≤ i → queue' !! i = Some member →
    (Search.radiusSearch tree member tolerance).1 ≠ 0 →
    ∀ j k, start ≤ j →
      (Search.radiusSearch tree member tolerance).2 !! j = Some k →
      processed' !! k = Some true
      ∨ f cloud cur (Search.radiusSearch tree member tolerance).2 j = Some false.
Proof.
  revert sq_idx processed queue.
  induction fuel as [|fuel IH]; intros sq_idx processed queue; simpl.
  - destruct (queue !! sq_idx) eqn:Hq; [done|].
    intros [= <- <- <-] Hinv i member Hlo Hi. apply (Hinv i); [|done].
    apply lookup_ge_None in Hq. apply lookup_lt_Some in Hi. lia.
  - destruct (queue !! sq_idx) as [member|] eqn:Hq.
    2:{ intros [= <- <- <-] Hinv i m Hlo Hi. apply (Hinv i); [|done].
        apply lookup_ge_None in Hq. apply lookup_lt_Some in Hi. lia. }
    destruct (Search.radiusSearch tree member tolerance) as [found nn] eqn:Hs.
    destruct (found =? 0) eqn:Hfound.
    + intros Hrun Hinv. apply (IH _ _ _ Hrun).
      intros i m Hi Hm. destruct (decide (i = sq_idx)) as [->|].
      * rewrite Hq in Hm. injection Hm as <-. rewrite Hs. simpl.
        apply Nat.eqb_eq in Hfound. done.
      * apply (Hinv i); [lia|done].
    + destruct (neighbor_loop _ _ _ _ _ _ _ _) as [[p1 q1]| |] eqn:Hn; simpl;
        [|done..].
      intros Hrun Hinv. apply (IH _ _ _ Hrun).
      pose proof Hn as (new & -> & Hm1 & _)%neighbor_loop_marks.
      intros i m Hi Hm Hfm j k Hj Hk.
      assert (Him : queue !! i = Some m).
      { rewrite lookup_app_l in Hm; [done|]. apply lookup_lt_Some in Hq. lia. }
      destruct (decide (i = sq_idx)) as [->|].
      * rewrite Hq in Him. injection Him as <-. rewrite Hs in Hk |- *.
        simpl in *.
        destruct (neighbor_loop_closed _ _ _ _ _ _ _ _ _ _ Hn (j - start) k)
          as [?|Hrej].
        -- rewrite lookup_drop. by replace (start + (j - start)) with j by lia.
        -- by left.
        -- right. by replace (start + (j - start)) with j in Hrej by lia.
      * destruct (Hinv i m ltac:(lia) Him Hfm j k Hj Hk) as [?|?]; [|by right].
        left. by eapply marks_mono.
Qed.

End SearchFailure.

(** C7: when the radius search around a queued member fails, that member
    adds nothing, the queue and the processed marks are left as they are,
    and the queue loop goes on with the next member.  Whatever the run then
    returns keeps every member queued so far, in place, and every mark made
    so far, and the growth has gone on from every member queued after the
    failing one: each point a successful search around such a member
    reports, from position [nn_start_idx] on, and the functor accepts is
    marked processed at the end and, if it was not marked when the search
    failed, is in the final queue.  The run is not aborted: with fuel for
    the members still to come it returns, as long as the other searches
    report positions of the processed vector. *)
Theorem queue_loop_search_failure {PCLHeader PointT float}
    (cloud : PointCloud.t PCLHeader PointT) (f : FunctorT)
    (tree : Search.t float) (tolerance : float)
    (start cur : index_t) (fuel : nat) (sq_idx : index_t)
    (processed : list bool) (seed_queue : Indices) (member : index_t) :
  seed_queue !! sq_idx = Some member →
  (Search.radiusSearch tree member tolerance).1 = 0 →
  queue_loop cloud f tree tolerance start cur (S fuel) sq_idx
    processed seed_queue
  = queue_loop cloud f tree tolerance start cur fuel (S sq_idx)
      processed seed_queue
  ∧ (∀ fuel' processed' seed_queue',
       queue_loop cloud f tree tolerance start cur (S fuel) sq_idx
         processed seed_queue = Done (fuel', processed', seed_queue') →
       seed_queue `prefix_of` seed_queue'
       ∧ (∀ p, processed !! p = Some true → processed' !! p = Some true)
       ∧ ∀ i later, sq_idx < i → seed_queue' !! i = Some later →
           (Search.radiusSearch tree later tolerance).1 ≠ 0 →
           ∀ j k, start ≤ j →
             (Search.radiusSearch tree later tolerance).2 !! j = Some k →
             f cloud cur (Search.radiusSearch tree later tolerance).2 j
               = Some true →
             processed' !! k = Some true
             ∧ (processed !! k = Some false → k ∈ seed_queue'))
  ∧ ((∀ cur nn j, is_Some (f cloud cur nn j)) →
     search_in_range tree tolerance start (length processed) →
     length seed_queue - sq_idx + unprocessed processed ≤ S fuel →
     ∃ r, queue_loop cloud f tree tolerance start cur (S fuel) sq_idx
            processed seed_queue = Done r).
Proof.
  intros Hq Hfail.
  assert (Hskip :
    queue_loop cloud f tree tolerance start cur (S fuel) sq_idx
      processed seed_queue
    = queue_loop cloud f tree tolerance start cur fuel (S sq_idx)
        processed seed_queue).
  { simpl. rewrite Hq.
    destruct (Search.radiusSearch tree member tolerance) as [found nn].
    simpl in Hfail. by rewrite Hfail. }
  split; [done|]. split.
  - intros fuel' processed' seed_queue' Hrun.
    pose proof Hrun as (new & -> & Hm & _)%queue_loop_marks.
    split; [by exists new|]. split; [intros p; by apply marks_mono with new|].
    intros i later Hi Hlater Hfound j k Hj Hk Hacc.
    rewrite Hskip in Hrun.
    destruct (queue_loop_closed_above cloud f tree tolerance (S sq_idx) _ _ _ _
                _ _ _ _ _ Hrun ltac:(intros; lia) i later ltac:(lia) Hlater
                Hfound j k Hj Hk) as [Hk'|Hrej]; [|congruence].
    split; [done|]. intros Hfresh.
    rewrite (marks_lookup _ _ _ Hm) in Hk'.
    case_decide as Hin; [|congruence]. apply elem_of_app. by right.
  - intros Hf Htree Hfuel.
    by apply (queue_loop_defined cloud f tree tolerance (length processed)).
Qed.

Lemma queue_loop_search_failure_witness :
  queue_loop cloud4 accept_all tree_gap () 1 1 3 1
    [true; true; true; false] [1; 0; 2]
  = queue_loop cloud4 accept_all tree_gap () 1 1 2 2
      [true; true; true; false] [1; 0; 2]
  ∧ [1; 0; 2] `prefix_of` [1; 0; 2; 3]
  ∧ ([true; true; true; true] !! 3 = Some true ∧ 3 ∈ [1; 0; 2; 3])
  ∧ ∃ r, queue_loop cloud4 accept_all tree_gap () 1 1 3 1
           [true; true; true; false] [1; 0; 2] = Done r.
Proof.
  destruct (queue_loop_search_failure cloud4 accept_all tree_gap () 1 1 2 1
              [true; true; true; false] [1; 0; 2] 0)
    as (Hskip & Hrun & Hreturns); [reflexivity|reflexivity|].
  destruct (Hrun 0 [true; true; true; true] [1; 0; 2; 3] eq_refl)
    as (Hprefix & _ & Hgrowth).
  split; [exact Hskip|]. split; [exact Hprefix|]. split.
  - destruct (Hgrowth 2 2 ltac:(lia) eq_refl ltac:(simpl; lia) 1 3
                ltac:(lia) eq_refl eq_refl) as [Hmarked Hqueued].
    split; [exact Hmarked|apply Hqueued; reflexivity].
  - apply Hreturns.
    + intros cur nn j. exists true. reflexivity.
    + intros m Hfound k. simpl in *.
      destruct m as [|[|[|m]]]; simpl in *; [done| | |];
        rewrite ?elem_of_cons; intros Hk;
        repeat (destruct Hk as [->|Hk]; [lia|]);
        by apply elem_of_nil in Hk.
    + vm_compute. lia.
Defined.

Lemma NoDup_concat_elem {A} (l : list A) (ls : list (list A)) :
  l ∈ ls → NoDup (concat ls) → NoDup l.
Proof.
  induction ls as [|l0 ls IH]; [by intros ?%elem_of_nil|]. simpl.
  intros [->|Hl]%elem_of_cons (H1 & _ & H2)%NoDup_app; auto.
Qed.

Lemma length_concat_elem {A} (l : list A) (ls : list (list A)) :
  l ∈ ls → length l ≤ length (concat ls).
Proof.
  induction ls as [|l0 ls IH]; [by intros ?%elem_of_nil|]. simpl.
  rewrite length_app. intros [->|Hl]%elem_of_cons; [lia|].
  specialize (IH Hl). lia.
Qed.

Lemma sublist_omap {A B} (g : A → option B) (l1 l2 : list A) :
  l1 `sublist_of` l2 → omap g l1 `sublist_of` omap g l2.
Proof.
  induction 1 as [|x l1 l2 _ IH|x l1 l2 _ IH]; simpl.
  - constructor.
  - destruct (g x); [by apply sublist_skip|done].
  - destruct (g x); [by apply sublist_cons|done].
Qed.

Lemma omap_head_fmap_mk {PCLHeader} (h : PCLHeader) (queues : list Indices) :
  omap (λ c, head (PointIndices.indices c)) (PointIndices.mk h <$> queues)
  = omap head queues.
Proof.
  induction queues as [|q queues IH]; csimpl; [done|]. by rewrite IH.
Qed.

Section Extraction.
Context {PCLHeader PointT float : Type}.
Context (cloud : PointCloud.t PCLHeader PointT)
        (f : @FunctorT PCLHeader PointT)
        (tree : Search.t float) (tolerance : float)
        (min_pts max_pts : nat).

(** A call that returns either printed the size error and left [clusters]
    alone, or printed nothing and ran the cloud loop to its end. *)
Lemma extractEuclideanClusters_it_queues fuel it clusters log clusters' :
  extractEuclideanClusters_it fuel it cloud f tree tolerance clusters
    min_pts max_pts = Done (log, clusters') →
  (log ≠ [] ∧ clusters' = clusters
   ∧ Search.getInputCloud_size tree ≠ length (PointCloud.points cloud))
  ∨ (log = []
     ∧ Search.getInputCloud_size tree = length (PointCloud.points cloud)
     ∧ ∃ (queues : list Indices) (processed' : list bool),
         clusters' = clusters ++
           (PointIndices.mk (PointCloud.header cloud)
              <$> filter (λ q, satisfactory min_pts max_pts q) queues)
         ∧ marks (replicate (length (PointCloud.points cloud)) false)
             processed' (concat queues)
         ∧ omap head queues `sublist_of` it
         ∧ Forall (λ q, ∃ seed, head q = Some seed
                      ∧ ∀ p, p ∈ q →
                          reachable cloud f tree tolerance (nn_start_idx tree)
                            seed p) queues
         ∧ (∀ cur, cur ∈ it → processed' !! cur = Some true)).
Proof.
  unfold extractEuclideanClusters_it. case_decide as Hsize.
  { intros [= <- <-]. left. done. }
  destruct (cloud_loop _ _ _ _ _ _ _ _ _ _ _) as [[[f' p'] c']| |] eqn:Hrun;
    simpl; [|done..].
  intros [= <- <-]. right. split; [done|].
  split; [by destruct (decide (Search.getInputCloud_size tree
                               = length (PointCloud.points cloud)))|].
  apply cloud_loop_queues in Hrun as (queues & H). by exists queues, p'.
Qed.

(** What [marks] from the all-false vector says of the queues. *)
Lemma marks_from_fresh n processed' (queues : list Indices) :
  marks (replicate n false) processed' (concat queues) →
  (∀ q, q ∈ queues → NoDup q ∧ length q ≤ n ∧ ∀ p, p ∈ q → p < n)
  ∧ (∀ p, processed' !! p = Some true → p ∈ concat queues).
Proof.
  intros Hm. split.
  - intros q Hq. split; [by eapply NoDup_concat_elem, Hm|].
    pose proof (marks_count _ _ _ Hm) as Hc.
    rewrite unprocessed_replicate in Hc.
    pose proof (length_concat_elem q queues Hq). split; [lia|].
    intros p Hp.
    assert (Hin : p ∈ concat queues) by (apply elem_of_concat; eauto).
    pose proof (marks_marked _ _ _ _ Hm Hin) as Hp'%lookup_lt_Some.
    rewrite (marks_length _ _ _ Hm), length_replicate in Hp'. done.
  - intros p Hp. rewrite (marks_lookup _ _ _ Hm) in Hp.
    case_decide; [done|]. apply lookup_replicate in Hp as [? _]. done.
Qed.

End Extraction.

(** ** What a returning call has appended *)

(** X1: every cluster a call appends carries the header of the cloud, has a size
    within the bounds and between one and the size of the cloud, lists no
    point twice and lists only positions of the cloud; what [clusters] held
    before the call is still there, in front. *)
Theorem extractEuclideanClusters_appended_wellformed {PCLHeader PointT float}
    (cloud : PointCloud.t PCLHeader PointT) (f : FunctorT)
    (tree : Search.t float) (tolerance : float) (it : list index_t)
    (clusters : list (PointIndices.t PCLHeader)) (min_pts max_pts fuel : nat)
    (log : list Diagnostic) (clusters' : list (PointIndices.t PCLHeader)) :
  extractEuclideanClusters_it fuel it cloud f tree tolerance clusters
    min_pts max_pts = Done (log, clusters') →
  ∃ added,
    clusters' = clusters ++ added
    ∧ ∀ c, c ∈ added →
        PointIndices.header c = PointCloud.header cloud
        ∧ min_pts ≤ length (PointIndices.indices c) ≤ max_pts
        ∧ 1 ≤ length (PointIndices.indices c) ≤ length (PointCloud.points cloud)
        ∧ NoDup (PointIndices.indices c)
        ∧ ∀ p, p ∈ PointIndices.indices c → p < length (PointCloud.points cloud).
Proof.
  intros [(_ & -> & _)|(_ & _ & queues & p' & -> & Hm & _ & Hall & _)]
    %extractEuclideanClusters_it_queues.
  { exists []. rewrite app_nil_r. split; [done|]. intros c []%elem_of_nil. }
  eexists. split; [done|].
  intros c (q & -> & [Hsat Hq]%list_elem_of_filter)%list_elem_of_fmap. simpl.
  apply marks_from_fresh in Hm as [Hm _].
  destruct (Hm q Hq) as (Hnd & Hlen & Hrange).
  rewrite Forall_forall in Hall. destruct (Hall q Hq) as (seed & Hhead & _).
  split; [done|]. split.
  { apply Is_true_true, andb_true_iff in Hsat as [?%Nat.leb_le ?%Nat.leb_le].
    done. }
  split; [|done]. split; [|done]. destruct q; [done|]. simpl. lia.
Qed.

Lemma extractEuclideanClusters_appended_wellformed_witness :
  ∃ added,
    [PointIndices.mk 7 [0; 1]; PointIndices.mk 7 [2]] = [] ++ added
    ∧ ∀ c, c ∈ added →
        PointIndices.header c = 7
        ∧ 1 ≤ length (PointIndices.indices c) ≤ 100
        ∧ 1 ≤ length (PointIndices.indices c) ≤ 3
        ∧ NoDup (PointIndices.indices c)
        ∧ ∀ p, p ∈ PointIndices.indices c → p < 3.
Proof.
  exact (extractEuclideanClusters_appended_wellformed cloud3 accept_all
           tree_pair_and_single () [0; 1; 2] [] 1 100 3 []
           [PointIndices.mk 7 [0; 1]; PointIndices.mk 7 [2]] eq_refl).
Defined.

(** X2: the clusters a call appends come in the order their seeds were met:
    their first members, read in order, are values of the iterator in the
    order the iterator gave them. *)
Theorem extractEuclideanClusters_seed_order {PCLHeader PointT float}
    (cloud : PointCloud.t PCLHeader PointT) (f : FunctorT)
    (tree : Search.t float) (tolerance : float) (it : list index_t)
    (clusters : list (PointIndices.t PCLHeader)) (min_pts max_pts fuel : nat)
    (log : list Diagnostic) (clusters' : list (PointIndices.t PCLHeader)) :
  extractEuclideanClusters_it fuel it cloud f tree tolerance clusters
    min_pts max_pts = Done (log, clusters') →
  ∃ added,
    clusters' = clusters ++ added
    ∧ omap (λ c, head (PointIndices.indices c)) added `sublist_of` it
    ∧ length (omap (λ c, head (PointIndices.indices c)) added) = length added.
Proof.
  intros [(_ & -> & _)|(_ & _ & queues & p' & -> & _ & Hsub & Hall & _)]
    %extractEuclideanClusters_it_queues.
  { exists []. rewrite app_nil_r. split; [done|]. split; [|done].
    apply sublist_nil_l. }
  eexists. split; [done|]. rewrite omap_head_fmap_mk. split.
  - etrans; [|exact Hsub]. apply sublist_omap, sublist_filter.
  - rewrite length_fmap.
    assert (Hall' : Forall (λ q : Indices, is_Some (head q))
                      (filter (λ q, satisfactory min_pts max_pts q) queues)).
    { apply Forall_forall. intros q [_ Hq]%list_elem_of_filter.
      rewrite Forall_forall in Hall. destruct (Hall q Hq) as (seed & -> & _).
      by exists seed. }
    induction Hall' as [|q l [seed Hq] _ IH]; csimpl; [done|].
    rewrite Hq. simpl. by rewrite IH.
Qed.

Lemma extractEuclideanClusters_seed_order_witness :
  ∃ added,
    [PointIndices.mk 7 [2]; PointIndices.mk 7 [1; 0]] = [] ++ added
    ∧ omap (λ c, head (PointIndices.indices c)) added `sublist_of` [2; 1; 0]
    ∧ length (omap (λ c, head (PointIndices.indices c)) added) = length added.
Proof.
  exact (extractEuclideanClusters_seed_order cloud3 accept_all
           tree_pair_and_single () [2; 1; 0] [] 1 100 3 []
           [PointIndices.mk 7 [2]; PointIndices.mk 7 [1; 0]] eq_refl).
Defined.

(** X3: every member of an appended cluster is reachable from the first member,
    the seed: it is the seed, or a successful radius search around a member
    reached before reported it, past the skipped first entry of a sorted
    answer, and the functor called for the seed accepted it. *)
Theorem extractEuclideanClusters_members_reachable {PCLHeader PointT float}
    (cloud : PointCloud.t PCLHeader PointT) (f : FunctorT)
    (tree : Search.t float) (tolerance : float) (it : list index_t)
    (clusters : list (PointIndices.t PCLHeader)) (min_pts max_pts fuel : nat)
    (log : list Diagnostic) (clusters' : list (PointIndices.t PCLHeader)) :
  extractEuclideanClusters_it fuel it cloud f tree tolerance clusters
    min_pts max_pts = Done (log, clusters') →
  ∃ added,
    clusters' = clusters ++ added
    ∧ ∀ c, c ∈ added →
        ∃ seed, head (PointIndices.indices c) = Some seed
          ∧ seed ∈ it
          ∧ ∀ p, p ∈ PointIndices.indices c →
              reachable cloud f tree tolerance (nn_start_idx tree) seed p.
Proof.
  intros [(_ & -> & _)|(_ & _ & queues & p' & -> & _ & Hsub & Hall & _)]
    %extractEuclideanClusters_it_queues.
  { exists []. rewrite app_nil_r. split; [done|]. intros c []%elem_of_nil. }
  eexists. split; [done|].
  intros c (q & -> & [_ Hq]%list_elem_of_filter)%list_elem_of_fmap. simpl.
  rewrite Forall_forall in Hall. destruct (Hall q Hq) as (seed & Hhead & Hreach).
  exists seed. split; [done|]. split; [|done].
  apply (elem_of_sublist (omap head queues)); [|done].
  apply list_elem_of_omap. eauto.
Qed.

Lemma extractEuclideanClusters_members_reachable_witness :
  ∃ added,
    [PointIndices.mk 7 [0; 1]; PointIndices.mk 7 [2]] = [] ++ added
    ∧ ∀ c, c ∈ added →
        ∃ seed, head (PointIndices.indices c) = Some seed
          ∧ seed ∈ [0; 1; 2]
          ∧ ∀ p, p ∈ PointIndices.indices c →
              reachable cloud3 accept_all tree_pair_and_single () 1 seed p.
Proof.
  exact (extractEuclideanClusters_members_reachable cloud3 accept_all
           tree_pair_and_single () [0; 1; 2] [] 1 100 3 []
           [PointIndices.mk 7 [0; 1]; PointIndices.mk 7 [2]] eq_refl).
Defined.

(** X4: when the queue loop, started at the front of a queue, has exhausted it,
    the neighbourhood of every member is settled: each point a successful
    radius search around a member reports from position [nn_start_idx] on is
    marked processed, or the functor refused it at that position. *)
Theorem queue_loop_exhausted_closed {PCLHeader PointT float}
    (cloud : PointCloud.t PCLHeader PointT) (f : FunctorT)
    (tree : Search.t float) (tolerance : float)
    (start cur : index_t) (fuel : nat) (processed : list bool)
    (seed_queue : Indices)
    (fuel' : nat) (processed' : list bool) (seed_queue' : Indices) :
  queue_loop cloud f tree tolerance start cur fuel 0 processed seed_queue
    = Done (fuel', processed', seed_queue') →
  ∀ member, member ∈ seed_queue' →
    (Search.radiusSearch tree member tolerance).1 ≠ 0 →
    ∀ j k, start ≤ j →
      (Search.radiusSearch tree member tolerance).2 !! j = Some k →
      processed' !! k = Some true
      ∨ f cloud cur (Search.radiusSearch tree member tolerance).2 j = Some false.
Proof.
  intros Hrun. apply (queue_loop_closed_from _ _ _ _ _ _ _ _ _ _ _ _ _ Hrun).
  intros i member Hi. lia.
Qed.

Lemma queue_loop_exhausted_closed_witness :
  [true; true] !! 1 = Some true ∨ accept_all cloud2 0 [0; 1] 1 = Some false.
Proof.
  apply (queue_loop_exhausted_closed cloud2 accept_all (tree_pair true) ()
           1 0 2 [true; false] [0] 0 [true; true] [0; 1] eq_refl 0);
    [left|simpl; lia|lia|reflexivity].
Defined.

(** X5: a call that returns without the size error has met only valid
    positions: every value of the iterator is below the size of the cloud.
    With bounds that let every size through, every value of the iterator is
    a member of an appended cluster. *)
Theorem extractEuclideanClusters_covers_iterator {PCLHeader PointT float}
    (cloud : PointCloud.t PCLHeader PointT) (f : FunctorT)
    (tree : Search.t float) (tolerance : float) (it : list index_t)
    (clusters : list (PointIndices.t PCLHeader)) (min_pts max_pts fuel : nat)
    (clusters' : list (PointIndices.t PCLHeader)) :
  extractEuclideanClusters_it fuel it cloud f tree tolerance clusters
    min_pts max_pts = Done ([], clusters') →
  (∀ cur, cur ∈ it → cur < length (PointCloud.points cloud))
  ∧ (min_pts ≤ 1 → length (PointCloud.points cloud) ≤ max_pts →
     ∃ added,
       clusters' = clusters ++ added
       ∧ ∀ cur, cur ∈ it → ∃ c, c ∈ added ∧ cur ∈ PointIndices.indices c).
Proof.
  intros [([] & _)|(_ & _ & queues & p' & -> & Hm & _ & Hall & Hit)]
    %extractEuclideanClusters_it_queues; [done|].
  pose proof (marks_from_fresh _ _ _ Hm) as [Hq Hin].
  split.
  - intros cur Hcur%Hit%lookup_lt_Some.
    by rewrite (marks_length _ _ _ Hm), length_replicate in Hcur.
  - intros Hmin Hmax. eexists. split; [done|].
    intros cur (q & Hqs & Hcur)%Hit%Hin%elem_of_concat.
    exists (PointIndices.mk (PointCloud.header cloud) q). split; [|done].
    apply list_elem_of_fmap. exists q. split; [done|].
    apply list_elem_of_filter. split; [|done].
    destruct (Hq q Hqs) as (_ & Hlen & _).
    rewrite Forall_forall in Hall. destruct (Hall q Hqs) as (seed & Hhead & _).
    apply Is_true_true, andb_true_iff.
    split; apply Nat.leb_le; [|lia]. destruct q; [done|]. simpl. lia.
Qed.

Lemma extractEuclideanClusters_covers_iterator_witness :
  (∀ cur, cur ∈ [0; 1; 2] → cur < 3)
  ∧ ∃ added,
      [PointIndices.mk 7 [0; 1]; PointIndices.mk 7 [2]] = [] ++ added
      ∧ ∀ cur, cur ∈ [0; 1; 2] →
          ∃ c, c ∈ added ∧ cur ∈ PointIndices.indices c.
Proof.
  destruct (extractEuclideanClusters_covers_iterator cloud3 accept_all
              tree_pair_and_single () [0; 1; 2] [] 1 100 3
              [PointIndices.mk 7 [0; 1]; PointIndices.mk 7 [2]] eq_refl)
    as [H1 H2].
  split; [exact H1|]. apply H2; simpl; lia.
Defined.

(** X6: the overload over a whole cloud, with bounds that let every size
    through, partitions the cloud: the members of the appended clusters,
    put end to end, are the positions [0 .. n-1] of the cloud, each once. *)
Theorem extractEuclideanClusters_whole_cloud_partition {PCLHeader PointT float}
    (cloud : PointCloud.t PCLHeader PointT) (f : FunctorT)
    (tree : Search.t float) (tolerance : float)
    (clusters : list (PointIndices.t PCLHeader)) (min_pts max_pts fuel : nat)
    (clusters' : list (PointIndices.t PCLHeader)) :
  extractEuclideanClusters fuel cloud f tree tolerance clusters
    min_pts max_pts = Done ([], clusters') →
  min_pts ≤ 1 → length (PointCloud.points cloud) ≤ max_pts →
  ∃ added,
    clusters' = clusters ++ added
    ∧ concat (PointIndices.indices <$> added)
      ≡ₚ seq 0 (length (PointCloud.points cloud)).
Proof.
  intros Hrun Hmin Hmax. unfold extractEuclideanClusters in Hrun.
  apply extractEuclideanClusters_it_queues in Hrun
    as [([] & _)|(_ & _ & queues & p' & -> & Hm & _ & Hall & Hit)]; [done|].
  pose proof (marks_from_fresh _ _ _ Hm) as [Hq Hin].
  eexists. split; [done|]. rewrite indices_fmap_mk.
  apply NoDup_Permutation;
    [apply NoDup_concat_filter, Hm|apply NoDup_seq|].
  intros p. rewrite elem_of_seq, elem_of_concat. split.
  - intros (q & [_ Hqs]%list_elem_of_filter & Hp).
    destruct (Hq q Hqs) as (_ & _ & Hrange). specialize (Hrange p Hp). lia.
  - intros Hp.
    assert (Hpc : p ∈ concat queues) by (apply Hin, Hit, elem_of_seq; lia).
    apply elem_of_concat in Hpc as (q & Hqs & Hpq).
    exists q. split; [|done]. apply list_elem_of_filter. split; [|done].
    destruct (Hq q Hqs) as (_ & Hlen & _).
    apply Is_true_true, andb_true_iff.
    split; apply Nat.leb_le; [|lia]. destruct q; [by apply elem_of_nil in Hpq|].
    simpl. lia.
Qed.

Lemma extractEuclideanClusters_whole_cloud_partition_witness :
  ∃ added,
    [PointIndices.mk 7 [0; 1]; PointIndices.mk 7 [2]] = [] ++ added
    ∧ concat (PointIndices.indices <$> added) ≡ₚ seq 0 3.
Proof.
  apply (extractEuclideanClusters_whole_cloud_partition cloud3 accept_all
           tree_pair_and_single () [] 1 100 3
           [PointIndices.mk 7 [0; 1]; PointIndices.mk 7 [2]] eq_refl);
    simpl; lia.
Defined.



(** ** The size bounds only filter *)

Section Bounds.
Context {PCLHeader PointT float : Type}.
Context (cloud : PointCloud.t PCLHeader PointT)
        (f : @FunctorT PCLHeader PointT)
        (tree : Search.t float) (tolerance : float)
        (min_pts max_pts : nat).

Lemma cloud_loop_bounds n start it fuel processed
    (clusters all : list (PointIndices.t PCLHeader)) :
  unprocessed processed ≤ n →
  cloud_loop cloud f tree tolerance min_pts max_pts start it fuel processed
    (clusters ++ filter (λ c, satisfactory min_pts max_pts
                                (PointIndices.indices c)) all)
  = '(fuel', processed', all') ←
      cloud_loop cloud f tree tolerance 0 n start it fuel processed all;
    Done (fuel', processed',
          clusters ++ filter (λ c, satisfactory min_pts max_pts
                                     (PointIndices.indices c)) all').
Proof.
  revert fuel processed all.
  induction it as [|cur it IH]; intros fuel processed all Hn; simpl; [done|].
  unfold at_. destruct (processed !! cur) as [[]|] eqn:Hcur; simpl; [auto| |done].
  destruct (queue_loop _ _ _ _ _ _ _ _ _ _) as [[[f1 p1] q1]| |] eqn:Hq;
    simpl; [|done..].
  apply seed_marks in Hq as (new & -> & Hm & _); [|done].
  pose proof (marks_count _ _ _ Hm) as Hc.
  assert (Hall : satisfactory 0 n (cur :: new) = true).
  { unfold satisfactory. apply andb_true_iff.
    split; apply Nat.leb_le; simpl in *; lia. }
  rewrite Hall. rewrite <- IH by lia. f_equal.
  rewrite filter_app. destruct (satisfactory min_pts max_pts _) eqn:Hsat.
  - rewrite filter_cons_True by (simpl; by rewrite Hsat).
    by rewrite app_assoc.
  - rewrite filter_cons_False by (simpl; rewrite Hsat; intros []).
    by rewrite app_nil_r.
Qed.

End Bounds.

(** X8: the bounds take no part in the growth: a call with the bounds
    [min_pts_per_cluster] and [max_pts_per_cluster] ends as the call with
    the bounds 0 and the size of the cloud, started on an empty vector,
    does, and appends the clusters of that call whose size lies within its
    own bounds, in the same order. *)
Theorem extractEuclideanClusters_bounds_filter {PCLHeader PointT float}
    (cloud : PointCloud.t PCLHeader PointT) (f : FunctorT)
    (tree : Search.t float) (tolerance : float) (it : list index_t)
    (clusters : list (PointIndices.t PCLHeader)) (min_pts max_pts fuel : nat) :
  extractEuclideanClusters_it fuel it cloud f tree tolerance clusters
    min_pts max_pts
  = '(log, all) ←
      extractEuclideanClusters_it fuel it cloud f tree tolerance []
        0 (length (PointCloud.points cloud));
    Done (log,
          clusters ++ filter (λ c, satisfactory min_pts max_pts
                                     (PointIndices.indices c)) all).
Proof.
  unfold extractEuclideanClusters_it. case_decide.
  { simpl. by rewrite app_nil_r. }
  pose proof (cloud_loop_bounds cloud f tree tolerance min_pts max_pts
                (length (PointCloud.points cloud)) (nn_start_idx tree) it fuel
                (replicate (length (PointCloud.points cloud)) false)
                clusters []) as Hb.
  simpl in Hb. rewrite app_nil_r in Hb.
  rewrite Hb by (by rewrite unprocessed_replicate).
  by destruct (cloud_loop cloud f tree tolerance 0 _ _ _ _ _ _)
    as [[[f1 p1] c1]| |].
Qed.

(** ** Searches that all fail *)

Section AllFail.
Context {PCLHeader PointT float : Type}.
Context (cloud : PointCloud.t PCLHeader PointT)
        (f : @FunctorT PCLHeader PointT)
        (tree : Search.t float) (tolerance : float)
        (min_pts max_pts : nat).

Lemma queue_loop_all_fail start cur fuel processed :
  (∀ member, (Search.radiusSearch tree member tolerance).1 = 0) →
  queue_loop cloud f tree tolerance start cur (S fuel) 0 processed [cur]
  = Done (fuel, processed, [cur]).
Proof.
  intros Hfail. simpl. pose proof (Hfail cur) as Hf.
  destruct (Search.radiusSearch tree cur tolerance) as [found nn].
  simpl in Hf. subst found. simpl. by destruct fuel.
Qed.

Lemma satisfactory_singleton (p : index_t) :
  satisfactory min_pts max_pts [p] = bool_decide (min_pts ≤ 1 ≤ max_pts).
Proof.
  unfold satisfactory. change (length [p]) with 1.
  destruct (decide (min_pts ≤ 1 ≤ max_pts)) as [[H1 H2]|Hn].
  - rewrite bool_decide_eq_true_2 by done.
    apply Nat.leb_le in H1 as ->, H2 as ->. done.
  - rewrite bool_decide_eq_false_2 by done. apply andb_false_iff.
    destruct (decide (min_pts ≤ 1)); [right|left]; apply Nat.leb_gt; lia.
Qed.

Lemma cloud_loop_all_fail start it fuel processed clusters :
  (∀ member, (Search.radiusSearch tree member tolerance).1 = 0) →
  NoDup it →
  (∀ cur, cur ∈ it → processed !! cur = Some false) →
  length it ≤ fuel →
  ∃ processed',
    cloud_loop cloud f tree tolerance min_pts max_pts start it
      fuel processed clusters
    = Done (fuel - length it, processed',
            clusters ++
              if decide (min_pts ≤ 1 ≤ max_pts)
              then (λ p, PointIndices.mk (PointCloud.header cloud) [p]) <$> it
              else []).
Proof.
  intros Hfail. revert fuel processed clusters.
  induction it as [|cur it IH]; intros fuel processed clusters Hnd Hfresh Hfuel.
  - exists processed. simpl. rewrite Nat.sub_0_r.
    by destruct (decide _); rewrite app_nil_r.
  - apply NoDup_cons in Hnd as [Hcur Hnd]. simpl in Hfuel.
    destruct fuel as [|fuel]; [lia|].
    assert (Hfresh' : ∀ x, x ∈ it → <[cur := true]> processed !! x = Some false).
    { intros x Hx. rewrite list_lookup_insert_ne by (by intros ->).
      apply Hfresh. by right. }
    cbn [cloud_loop]. unfold at_. rewrite (Hfresh cur) by left.
    cbv beta iota delta [mbind outcome_bind].
    rewrite queue_loop_all_fail by done.
    cbv beta iota. rewrite satisfactory_singleton.
    destruct (decide (min_pts ≤ 1 ≤ max_pts)) as [Hb|Hb].
    + rewrite bool_decide_eq_true_2 by done.
      destruct (IH fuel (<[cur := true]> processed)
                  (clusters ++ [PointIndices.mk (PointCloud.header cloud) [cur]])
                  Hnd Hfresh' ltac:(lia)) as [p' ->].
      exists p'. rewrite fmap_cons, <- app_assoc. done.
    + rewrite bool_decide_eq_false_2 by done.
      destruct (IH fuel (<[cur := true]> processed) clusters
                  Hnd Hfresh' ltac:(lia)) as [p' ->].
      by exists p'.
Qed.

End AllFail.

(** X9: when every radius search fails, nothing is ever added to a seed: over
    an iterator of distinct positions of the cloud, and with fuel for one
    iteration each, the call appends one cluster per value of the iterator,
    holding that value alone, in the order of the iterator, if clusters of
    size one are within the bounds, and appends nothing otherwise. *)
Theorem extractEuclideanClusters_all_searches_fail {PCLHeader PointT float}
    (cloud : PointCloud.t PCLHeader PointT) (f : FunctorT)
    (tree : Search.t float) (tolerance : float) (it : list index_t)
    (clusters : list (PointIndices.t PCLHeader)) (min_pts max_pts fuel : nat) :
  Search.getInputCloud_size tree = length (PointCloud.points cloud) →
  (∀ member, (Search.radiusSearch tree member tolerance).1 = 0) →
  NoDup it →
  (∀ cur, cur ∈ it → cur < length (PointCloud.points cloud)) →
  length it ≤ fuel →
  extractEuclideanClusters_it fuel it cloud f tree tolerance clusters
    min_pts max_pts
  = Done ([], clusters ++
              if decide (min_pts ≤ 1 ≤ max_pts)
              then (λ p, PointIndices.mk (PointCloud.header cloud) [p]) <$> it
              else []).
Proof.
  intros Hsize Hfail Hnd Hit Hfuel. unfold extractEuclideanClusters_it.
  rewrite decide_False by (by intros H; apply H).
  destruct (cloud_loop_all_fail cloud f tree tolerance min_pts max_pts
              (nn_start_idx tree) it fuel
              (replicate (length (PointCloud.points cloud)) false) clusters)
    as [p' ->]; [done|done| |done|done].
  intros cur Hcur. by apply lookup_replicate_2, Hit.
Qed.

Lemma extractEuclideanClusters_all_searches_fail_witness :
  extractEuclideanClusters_it 2 [1; 0] cloud2 accept_all tree_failing () [] 1 100
  = Done ([], [] ++
              if decide (1 ≤ 1 ≤ 100)
              then (λ p, PointIndices.mk 7 [p]) <$> [1; 0]
              else []).
Proof.
  apply (extractEuclideanClusters_all_searches_fail cloud2 accept_all
           tree_failing () [1; 0] [] 1 100 2).
  - reflexivity.
  - intros member. reflexivity.
  - apply NoDup_cons. split; [|apply NoDup_singleton].
    intros H%list_elem_of_singleton. discriminate.
  - intros cur [->|[->|[]%elem_of_nil]%elem_of_cons]%elem_of_cons; simpl; lia.
  - simpl. lia.
Defined.

(** ** Functors defined on the positions of the cloud *)

Section DefinedInRange.
Context {PCLHeader PointT float : Type}.
Context (cloud : PointCloud.t PCLHeader PointT)
        (f : @FunctorT PCLHeader PointT)
        (tree : Search.t float) (tolerance : float)
        (min_pts max_pts n : nat).

Lemma neighbor_loop_defined_in_range cur nn rest j processed queue :
  (∀ cur nn j k, cur < n → nn !! j = Some k → k < n →
     is_Some (f cloud cur nn j)) →
  cur < n →
  length processed = n →
  (∀ t, rest !! t = nn !! (j + t)) →
  (∀ k, k ∈ rest → k < n) →
  ∃ r, neighbor_loop cloud f cur nn rest j processed queue = Done r.
Proof.
  intros Hf Hcur. revert j processed queue.
  induction rest as [|k rest IH]; intros j processed queue Hlen Hrest Hin;
    simpl; [eauto|].
  assert (Hk : nn !! j = Some k).
  { pose proof (Hrest 0) as H0. rewrite Nat.add_0_r in H0. by rewrite <- H0. }
  assert (Hrest' : ∀ t, rest !! t = nn !! (S j + t)).
  { intros t. replace (S j + t) with (j + S t) by lia. exact (Hrest (S t)). }
  assert (Hin' : ∀ x, x ∈ rest → x < n) by (intros x Hx; apply Hin; by right).
  assert (Hkn : k < n) by (apply Hin; left).
  destruct (lookup_lt_is_Some_2 processed k) as [[] ->]; [lia|auto|].
  destruct (Hf cur nn j k Hcur Hk Hkn) as [[] ->]; [|auto].
  apply IH; [by rewrite length_insert|done..].
Qed.

Lemma queue_loop_defined_in_range start cur fuel sq_idx processed queue :
  (∀ cur nn j k, cur < n → nn !! j = Some k → k < n →
     is_Some (f cloud cur nn j)) →
  search_in_range tree tolerance start n →
  cur < n →
  length processed = n →
  length queue - sq_idx + unprocessed processed ≤ fuel →
  ∃ r, queue_loop cloud f tree tolerance start cur fuel sq_idx processed queue
       = Done r.
Proof.
  intros Hf Htree Hcur. revert sq_idx processed queue.
  induction fuel as [|fuel IH]; intros sq_idx processed queue Hlen Hfuel; simpl.
  - destruct (queue !! sq_idx) eqn:Hq; [|eauto].
    apply lookup_lt_Some in Hq. lia.
  - destruct (queue !! sq_idx) as [member|] eqn:Hq; [|eauto].
    apply lookup_lt_Some in Hq. specialize (Htree member).
    destruct (Search.radiusSearch tree member tolerance) as [found nn].
    destruct (found =? 0) eqn:Hfound; [apply IH; [done|lia]|].
    apply Nat.eqb_neq in Hfound. simpl in Htree.
    destruct (neighbor_loop_defined_in_range cur nn (drop start nn) start
                processed queue) as [[p1 q1] Hn];
      [done|done|done|apply lookup_drop|by apply Htree|].
    rewrite Hn. simpl.
    apply neighbor_loop_marks in Hn as (new1 & -> & [_ Hl _ _ Hc] & _).
    apply IH; [congruence|]. rewrite length_app. lia.
Qed.

Lemma cloud_loop_defined_in_range start it fuel processed clusters :
  (∀ cur nn j k, cur < n → nn !! j = Some k → k < n →
     is_Some (f cloud cur nn j)) →
  search_in_range tree tolerance start n →
  (∀ cur, cur ∈ it → cur < n) →
  length processed = n →
  unprocessed processed ≤ fuel →
  ∃ r, cloud_loop cloud f tree tolerance min_pts max_pts start it
         fuel processed clusters = Done r.
Proof.
  intros Hf Htree. revert fuel processed clusters.
  induction it as [|cur it IH]; intros fuel processed clusters Hit Hlen Hfuel;
    simpl; [eauto|].
  assert (Hit' : ∀ x, x ∈ it → x < n) by (intros x Hx; apply Hit; by right).
  assert (Hcn : cur < n) by (apply Hit; left).
  unfold at_.
  destruct (lookup_lt_is_Some_2 processed cur) as [[] Hcur];
    [lia|rewrite Hcur; simpl; auto|].
  rewrite Hcur. simpl.
  pose proof (unprocessed_insert _ _ Hcur) as Hins.
  destruct (queue_loop_defined_in_range start cur fuel 0
              (<[cur := true]> processed) [cur])
    as [[[f1 p1] q1] Hq]; [done|done|done|by rewrite length_insert|simpl; lia|].
  rewrite Hq. simpl.
  apply queue_loop_marks in Hq as (new & -> & [_ Hl _ _ Hc] & Hfq).
  rewrite length_insert in Hl. rewrite length_app in Hfq. simpl in Hfq.
  destruct (satisfactory _ _ _); apply IH; (done || congruence || lia).
Qed.

End DefinedInRange.


(** X10: the overload with normals over a whole cloud never reads out of range
    when the tree only reports positions of the cloud: past the size check,
    every normal the lambda reads belongs to a point whose processed mark
    was read before.  With as much fuel as the cloud has points the call
    returns. *)
Theorem extractEuclideanClusters_normals_returns {PCLHeader PointT float}
    (cloud : PointCloud.t PCLHeader PointT)
    (normals : PointCloud.t PCLHeader Normal)
    (tolerance : float) (tree : Search.t float)
    (clusters : list (PointIndices.t PCLHeader)) (max_angle : R)
    (min_pts max_pts fuel : nat) :
  length (PointCloud.points cloud) ≤ fuel →
  search_in_range tree tolerance (nn_start_idx tree)
    (length (PointCloud.points cloud)) →
  ∃ r, extractEuclideanClusters_normals fuel cloud normals tolerance tree
         clusters max_angle min_pts max_pts = Done r.
Proof.
  intros Hfuel Htree.
  unfold extractEuclideanClusters_normals, extractEuclideanClusters,
    extractEuclideanClusters_it.
  case_decide as Hsize; [eauto|]. case_decide; [eauto|].
  assert (Hsize' : length (PointCloud.points cloud)
                   = length (PointCloud.points normals))
    by (by destruct (decide (length (PointCloud.points cloud)
                             = length (PointCloud.points normals)))).
  destruct (cloud_loop_defined_in_range cloud
              (normal_deviation_filter normals (cos (clamp_angle max_angle)))
              tree tolerance min_pts max_pts (length (PointCloud.points cloud))
              (nn_start_idx tree) (ConstCloudIterator cloud) fuel
              (replicate (length (PointCloud.points cloud)) false) clusters)
    as [[[f1 p1] c1] ->].
  - intros cur nn j k Hcur Hk Hkn. unfold normal_deviation_filter.
    destruct (lookup_lt_is_Some_2 (PointCloud.points normals) cur) as [n_i ->];
      [lia|].
    simpl. rewrite Hk. simpl.
    destruct (lookup_lt_is_Some_2 (PointCloud.points normals) k) as [n_j ->];
      [lia|].
    simpl. eauto.
  - done.
  - intros cur Hcur%elem_of_seq. lia.
  - apply length_replicate.
  - by rewrite unprocessed_replicate.
  - simpl. eauto.
Qed.

Lemma extractEuclideanClusters_normals_returns_witness :
  ∃ r, extractEuclideanClusters_normals 2 cloud2 normals_perpendicular ()
         (tree_pair true) [] 0 1 100 = Done r.
Proof.
  apply (extractEuclideanClusters_normals_returns cloud2 normals_perpendicular
           () (tree_pair true) [] 0%R 1 100 2).
  - simpl. lia.
  - intros member Hfound k. simpl in *.
    destruct member as [|[|member]]; simpl in *; [| |done];
      intros Hk%list_elem_of_singleton; rewrite Hk; lia.
Defined.




(** ** The comparator and the configuration class *)

(** X12: [comparePointClusters] orders clusters by their number of indices and
    is a strict weak ordering, as [std::sort] requires of its comparator:
    irreflexive, asymmetric, transitive, and with a transitive
    incomparability, two clusters being incomparable exactly when they have
    the same size. *)
Theorem comparePointClusters_strict_weak_order {PCLHeader : Type} :
  (∀ a b : PointIndices.t PCLHeader,
     comparePointClusters a b = true
     ↔ length (PointIndices.indices a) < length (PointIndices.indices b))
  ∧ (∀ a : PointIndices.t PCLHeader, comparePointClusters a a = false)
  ∧ (∀ a b : PointIndices.t PCLHeader,
       comparePointClusters a b = true → comparePointClusters b a = false)
  ∧ (∀ a b c : PointIndices.t PCLHeader,
       comparePointClusters a b = true → comparePointClusters b c = true →
       comparePointClusters a c = true)
  ∧ (∀ a b : PointIndices.t PCLHeader,
       comparePointClusters a b = false ∧ comparePointClusters b a = false
       ↔ length (PointIndices.indices a) = length (PointIndices.indices b))
  ∧ (∀ a b c : PointIndices.t PCLHeader,
       comparePointClusters a b = false → comparePointClusters b a = false →
       comparePointClusters b c = false → comparePointClusters c b = false →
       comparePointClusters a c = false ∧ comparePointClusters c a = false).
Proof.
  unfold comparePointClusters.
  split; [intros a b; apply Nat.ltb_lt|].
  split; [intros a; apply Nat.ltb_irrefl|].
  split; [intros a b ?%Nat.ltb_lt; apply Nat.ltb_ge; lia|].
  split; [intros a b c ?%Nat.ltb_lt ?%Nat.ltb_lt; apply Nat.ltb_lt; lia|].
  split.
  - intros a b. rewrite !Nat.ltb_ge. lia.
  - intros a b c ?%Nat.ltb_ge ?%Nat.ltb_ge ?%Nat.ltb_ge ?%Nat.ltb_ge.
    rewrite !Nat.ltb_ge. lia.
Qed.

Lemma last_cons_default {A} (d x : A) (l : list A) :
  default d (last (x :: l)) = default x (last l).
Proof. rewrite last_cons. by destruct (last l). Qed.

(** X13: after any sequence of setter calls on an [EuclideanClusterExtraction],
    each getter returns the argument of the last call of its own setter,
    whatever other setters were called since, and what it returned before
    the calls if its setter was not called; on a freshly constructed object
    that is no tree, the tolerance 0, the minimum 1 and the maximum
    [INT_MAX]. *)
Theorem EuclideanClusterExtraction_getters {float : Type}
    (self : EuclideanClusterExtraction.t float)
    (calls : list (EuclideanClusterExtraction.call float)) :
  (EuclideanClusterExtraction.getSearchMethod
     (EuclideanClusterExtraction.perform_all calls self)
   = default (EuclideanClusterExtraction.getSearchMethod self)
       (last (omap EuclideanClusterExtraction.tree_set calls))
   ∧ EuclideanClusterExtraction.getClusterTolerance
       (EuclideanClusterExtraction.perform_all calls self)
     = default (EuclideanClusterExtraction.getClusterTolerance self)
         (last (omap EuclideanClusterExtraction.tolerance_set calls))
   ∧ EuclideanClusterExtraction.getMinClusterSize
       (EuclideanClusterExtraction.perform_all calls self)
     = default (EuclideanClusterExtraction.getMinClusterSize self)
         (last (omap EuclideanClusterExtraction.min_set calls))
   ∧ EuclideanClusterExtraction.getMaxClusterSize
       (EuclideanClusterExtraction.perform_all calls self)
     = default (EuclideanClusterExtraction.getMaxClusterSize self)
         (last (omap EuclideanClusterExtraction.max_set calls)))
  ∧ EuclideanClusterExtraction.getSearchMethod
      (@EuclideanClusterExtraction.new float) = None
  ∧ EuclideanClusterExtraction.getClusterTolerance
      (@EuclideanClusterExtraction.new float) = 0%R
  ∧ EuclideanClusterExtraction.getMinClusterSize
      (@EuclideanClusterExtraction.new float) = 1%Z
  ∧ EuclideanClusterExtraction.getMaxClusterSize
      (@EuclideanClusterExtraction.new float) = 2147483647%Z.
Proof.
  split; [|done]. unfold EuclideanClusterExtraction.perform_all. revert self.
  induction calls as [|c calls IH]; intros self; [done|].
  simpl. destruct (IH (EuclideanClusterExtraction.perform self c))
    as (-> & -> & -> & ->).
  destruct c; csimpl; rewrite ?last_cons_default; done.
Qed.
